(** * AdHocVcc routing relay: the shortest-path engine and the session protocol

    A shallow embedding of [HighPowerVehicle.py] and [CloudServer.py].

    Python values are modelled as follows.
    - [int] is [Z] (unbounded), [float('inf')] is the constructor [Inf].
    - [str] is the list of its code points, [bytes] the list of its octets.
    - a [dict] iterated with [.items()] is an association list in insertion
      order; a [dict] used for lookup and update is a [gmap]; a [set] is a
      [gset].
    - the [heapq] priority queue is a list read as a multiset: [heappush]
      adds an element and [heappop] removes a least element for Python's
      tuple order.
    - a function that may raise or loop returns an [Outcome]. *)

From stdpp Require Import gmap list strings.

Local Open Scope Z_scope.
Set Default Proof Using "Type".

(** ** Outcomes of Python calls *)

Inductive Exn : Type :=
  | AttributeError
  | IndexError
  | KeyError
  | TypeError
  | ValueError
  | UnicodeDecodeError
  | UnicodeEncodeError
  | UnpicklingError
  | OSError.

Inductive Outcome (A : Type) : Type :=
  | Returned (a : A)
  | Raised (e : Exn)
  | OutOfFuel.

Arguments Returned {A} a.
Arguments Raised {A} e.
Arguments OutOfFuel {A}.

(** A finite [int] or [float('inf')], the values held by [distances]. *)
Inductive Dist : Type :=
  | Inf
  | Fin (d : Z).

(** [x < distances[..]] for an [int] x. *)
Definition lt_dist (x : Z) (d : Dist) : bool :=
  match d with
  | Inf => true
  | Fin y => bool_decide (x < y)
  end.

(** [x > distances[..]] for an [int] x. *)
Definition gt_dist (x : Z) (d : Dist) : bool :=
  match d with
  | Inf => false
  | Fin y => bool_decide (y < x)
  end.

(** ** The path engine, [HPV_GetShortestPath] *)

Section Engine.

Context `{Countable Node}.

(** Python's [<] on two distinct nodes.  None of the results below needs
    it to be an order: distances are compared first. *)
Variable node_ltb : Node → Node → bool.

Definition Edge : Type := Node * Node * Z.
Definition Entry : Type := Z * Node * list Node.

(** Python's [<] on lists: the first position where the two differ decides. *)
Fixpoint path_ltb (p q : list Node) : bool :=
  match p, q with
  | [], [] => false
  | [], _ :: _ => true
  | _ :: _, [] => false
  | x :: p', y :: q' => if decide (x = y) then path_ltb p' q' else node_ltb x y
  end.

(** Python's [<] on the tuples [(distance, node, path)]. *)
Definition entry_ltb (a b : Entry) : bool :=
  let '(d1, n1, p1) := a in
  let '(d2, n2, p2) := b in
  if decide (d1 = d2)
  then if decide (n1 = n2) then path_ltb p1 p2 else node_ltb n1 n2
  else bool_decide (d1 < d2).

Definition heappush (pq : list Entry) (e : Entry) : list Entry := pq ++ [e].

(** [pop_min e l] splits [e :: l] into a least entry and the others. *)
Fixpoint pop_min (e : Entry) (l : list Entry) : Entry * list Entry :=
  match l with
  | [] => (e, [])
  | x :: l' =>
      let '(m, r) := pop_min x l' in
      if entry_ltb m e then (m, e :: r) else (e, x :: l')
  end.

Definition heappop (pq : list Entry) : option (Entry * list Entry) :=
  match pq with
  | [] => None
  | e :: l => Some (pop_min e l)
  end.

(** [if k not in graph: graph[k] = []] *)
Definition ensure_key (k : Node) (graph : gmap Node (list (Node * Z)))
  : gmap Node (list (Node * Z)) :=
  match graph !! k with
  | None => <[k := []]> graph
  | Some _ => graph
  end.

(** [graph[k].append(x)], for a key that is present. *)
Definition append_to (k : Node) (x : Node * Z) (graph : gmap Node (list (Node * Z)))
  : gmap Node (list (Node * Z)) :=
  alter (λ l, l ++ [x]) k graph.

(** One round of the loop that builds the adjacency lists (lines 247-255). *)
Definition add_edge (st : gmap Node (list (Node * Z)) * gset Node) (e : Edge)
  : gmap Node (list (Node * Z)) * gset Node :=
  let '(graph, nodes) := st in
  let '(u, v, w) := e in
  let graph := ensure_key u graph in
  let graph := ensure_key v graph in
  let graph := append_to u (v, w) graph in
  let graph := append_to v (u, w) graph in
  (graph, {[v]} ∪ ({[u]} ∪ nodes)).

Definition build_graph (map : list Edge) : gmap Node (list (Node * Z)) * gset Node :=
  foldl add_edge (∅, ∅) map.

(** [graph.get(node, [])] *)
Definition graph_get (graph : gmap Node (list (Node * Z))) (node : Node) : list (Node * Z) :=
  default [] (graph !! node).

(** The [for neighbor, weight in ...] loop (lines 275-279). *)
Fixpoint relax (current_distance : Z) (path : list Node) (nbrs : list (Node * Z))
    (distances : gmap Node Dist) (pq : list Entry)
  : Outcome (gmap Node Dist * list Entry) :=
  match nbrs with
  | [] => Returned (distances, pq)
  | (neighbor, weight) :: nbrs' =>
      let distance := current_distance + weight in
      match distances !! neighbor with
      | None => Raised KeyError
      | Some dn =>
          if lt_dist distance dn
          then relax current_distance path nbrs'
                 (<[neighbor := Fin distance]> distances)
                 (heappush pq (distance, neighbor, path ++ [neighbor]))
          else relax current_distance path nbrs' distances pq
      end
  end.

(** The [while pq] loop (lines 265-281); [fuel] bounds its rounds. *)
Fixpoint dijkstra_loop (fuel : nat) (graph : gmap Node (list (Node * Z)))
    (destination : Node) (distances : gmap Node Dist) (pq : list Entry)
  : Outcome (list Node) :=
  match fuel with
  | O => OutOfFuel
  | S fuel' =>
      match heappop pq with
      | None => Returned []
      | Some ((current_distance, current_node, path), pq') =>
          if decide (current_node = destination) then Returned path
          else
            match distances !! current_node with
            | None => Raised KeyError
            | Some dc =>
                if gt_dist current_distance dc
                then dijkstra_loop fuel' graph destination distances pq'
                else
                  match relax current_distance path (graph_get graph current_node)
                          distances pq' with
                  | Returned (distances', pq'') =>
                      dijkstra_loop fuel' graph destination distances' pq''
                  | Raised e => Raised e
                  | OutOfFuel => OutOfFuel
                  end
            end
      end
  end.

Definition HPV_GetShortestPath (fuel : nat) (source destination : Node)
    (map : list Edge) : Outcome (list Node) :=
  let '(graph, nodes) := build_graph map in
  let pq := heappush [] (0, source, [source]) in
  let distances := gset_to_gmap Inf nodes in
  let distances := <[source := Fin 0]> distances in
  dijkstra_loop fuel graph destination distances pq.

(** *** Vocabulary of the specification *)

(** The map joins [u] and [v] at cost [w], in one direction or the other. *)
Definition edge (map : list Edge) (u v : Node) (w : Z) : Prop :=
  (u, v, w) ∈ map ∨ (v, u, w) ∈ map.

Definition nonneg (map : list Edge) : Prop :=
  Forall (λ e : Edge, 0 ≤ e.2) map.

(** [chain map p ws]: each two consecutive nodes of [p] are joined by an
    edge of the map, and [ws] lists the weights of these edges in order. *)
Fixpoint chain (map : list Edge) (p : list Node) (ws : list Z) : Prop :=
  match p, ws with
  | [_], [] => True
  | x :: ((y :: _) as p'), w :: ws' => edge map x y w ∧ chain map p' ws'
  | _, _ => False
  end.

Definition total (ws : list Z) : Z := foldr Z.add 0 ws.

(** [p] leads from [s] to [t] along edges whose weights are [ws]. *)
Definition route (map : list Edge) (s t : Node) (p : list Node) (ws : list Z) : Prop :=
  head p = Some s ∧ last p = Some t ∧ chain map p ws.

Definition reachable (map : list Edge) (s t : Node) : Prop :=
  ∃ p ws, route map s t p ws.

(** A node that is an endpoint of no edge. *)
Definition isolated (map : list Edge) (x : Node) : Prop :=
  ∀ y w, ¬ edge map x y w.

(** The same routes, built the way the engine extends a path: at the end. *)
Inductive walk (map : list Edge) (s : Node) : Node → list Node → Z → Prop :=
  | walk_start : walk map s s [s] 0
  | walk_step u v w p d :
      walk map s u p d → edge map u v w → walk map s v (p ++ [v]) (d + w).

(** *** The loop invariant and the termination measure *)

(** While the [for] loop visits the neighbours of the node [n] taken from
    the queue at distance [d], the edges to the neighbours [nbrs] still to
    come are pending. *)
Definition pending (n : Node) (d : Z) (nbrs : list (Node * Z))
    (x : Node) (dx : Z) (y : Node) (w : Z) : Prop :=
  x = n ∧ dx = d ∧ (y, w) ∈ nbrs.

Definition no_pending (x : Node) (dx : Z) (y : Node) (w : Z) : Prop := False.

Record inv (map : list Edge) (s t : Node) (pend : Node → Z → Node → Z → Prop)
    (distances : gmap Node Dist) (pq : list Entry) : Prop := {
  inv_source : distances !! s = Some (Fin 0);
  inv_dom : ∀ u v w, edge map u v w → is_Some (distances !! v);
  inv_pos : ∀ x dx, distances !! x = Some (Fin dx) → 0 ≤ dx;
  inv_queue : ∀ d n p, (d, n, p) ∈ pq →
    walk map s n p d ∧ ∃ dn, distances !! n = Some (Fin dn) ∧ dn ≤ d;
  inv_open : ∀ x dx, distances !! x = Some (Fin dx) →
    (∃ p, (dx, x, p) ∈ pq) ∨
    (∀ y w, edge map x y w →
       pend x dx y w ∨ ∃ dy, distances !! y = Some (Fin dy) ∧ dy ≤ dx + w);
  inv_dest : ∀ dd, distances !! t = Some (Fin dd) → ∃ p, (dd, t, p) ∈ pq
}.

Definition is_inf (d : Dist) : nat :=
  match d with
  | Inf => 1
  | Fin _ => 0
  end.

Definition fin_val (d : Dist) : nat :=
  match d with
  | Inf => 0
  | Fin z => Z.to_nat z
  end.

Definition weigh (f : Dist → nat) (distances : gmap Node Dist) : nat :=
  sum_list_with (λ kv, f kv.2) (map_to_list distances).

(** Fewer infinite entries, or as many and a smaller sum of the finite ones. *)
Definition smaller (d' d : gmap Node Dist) : Prop :=
  (weigh is_inf d' < weigh is_inf d)%nat ∨
  (weigh is_inf d' = weigh is_inf d ∧ (weigh fin_val d' < weigh fin_val d)%nat).

(** What the loop owes when it returns [r]. *)
Definition post (map : list Edge) (s t : Node) (r : list Node) : Prop :=
  (r = [] ∧ ∀ q W, ¬ walk map s t q W) ∨
  (∃ d, walk map s t r d ∧ ∀ q W, walk map s t q W → d ≤ W).

End Engine.

(** Python's [str] and its order. *)
Definition str : Type := list Z.

Fixpoint str_ltb (a b : str) : bool :=
  match a, b with
  | [], [] => false
  | [], _ :: _ => true
  | _ :: _, [] => false
  | x :: a', y :: b' => if decide (x = y) then str_ltb a' b' else bool_decide (x < y)
  end.

(** An ASCII literal of the source as a [str]. *)
Definition lit (s : string) : str :=
  (λ a, Z.of_nat (Ascii.nat_of_ascii a)) <$> String.list_ascii_of_string s.

(** Python's [bytes]. *)
Definition bytes : Type := list Z.

(** The [bytes] literal [b'...'] of ASCII text. *)
Definition blit (s : string) : bytes := lit s.

(** ** The authority's topology ([CloudServer.py], lines 19-27) *)

Definition CloudServer_GlobalGraph : list (@Edge str) :=
  [ (lit "A", lit "D", 1);
    (lit "A", lit "B", 6);
    (lit "D", lit "B", 2);
    (lit "D", lit "E", 1);
    (lit "E", lit "B", 2);
    (lit "E", lit "C", 5);
    (lit "B", lit "C", 5) ].

(** ** Text and octets *)

Definition between (lo x hi : Z) : bool := bool_decide (lo ≤ x ≤ hi).

(** A continuation octet, [0x80..0xBF]. *)
Definition cont (b : Z) : bool := between 128 b 191.

(** [bs.decode('utf-8')]: the strict decoder, which accepts exactly the
    well-formed sequences (no overlong form, no surrogate, nothing above
    U+10FFFF); [None] stands for [UnicodeDecodeError]. *)
Fixpoint utf8_decode (bs : bytes) : option str :=
  match bs with
  | [] => Some []
  | b1 :: r1 =>
      if between 0 b1 127 then
        cons b1 <$> utf8_decode r1
      else if between 194 b1 223 then
        match r1 with
        | b2 :: r2 =>
            if cont b2
            then cons ((b1 - 192) * 64 + (b2 - 128)) <$> utf8_decode r2
            else None
        | _ => None
        end
      else if between 224 b1 239 then
        match r1 with
        | b2 :: b3 :: r3 =>
            if between (if bool_decide (b1 = 224) then 160 else 128) b2
                       (if bool_decide (b1 = 237) then 159 else 191)
               && cont b3
            then cons ((b1 - 224) * 4096 + (b2 - 128) * 64 + (b3 - 128))
                   <$> utf8_decode r3
            else None
        | _ => None
        end
      else if between 240 b1 244 then
        match r1 with
        | b2 :: b3 :: b4 :: r4 =>
            if between (if bool_decide (b1 = 240) then 144 else 128) b2
                       (if bool_decide (b1 = 244) then 143 else 191)
               && cont b3 && cont b4
            then cons ((b1 - 240) * 262144 + (b2 - 128) * 4096
                       + (b3 - 128) * 64 + (b4 - 128))
                   <$> utf8_decode r4
            else None
        | _ => None
        end
      else None
  end.

(** The octets of one code point; [None] stands for [UnicodeEncodeError]. *)
Definition utf8_encode_char (c : Z) : option bytes :=
  if between 0 c 127 then Some [c]
  else if between 128 c 2047 then Some [192 + c / 64; 128 + c mod 64]
  else if between 55296 c 57343 then None
  else if between 2048 c 65535 then
    Some [224 + c / 4096; 128 + (c / 64) mod 64; 128 + c mod 64]
  else if between 65536 c 1114111 then
    Some [240 + c / 262144; 128 + (c / 4096) mod 64;
          128 + (c / 64) mod 64; 128 + c mod 64]
  else None.

(** [s.encode('utf-8')] *)
Fixpoint utf8_encode (s : str) : option bytes :=
  match s with
  | [] => Some []
  | c :: s' =>
      match utf8_encode_char c, utf8_encode s' with
      | Some b, Some bs => Some (b ++ bs)
      | _, _ => None
      end
  end.

(** [bytes(ints)]: every item must be in [range(0, 256)]. *)
Definition bytes_of_ints (ints : list Z) : Outcome bytes :=
  if forallb (λ i, between 0 i 255) ints then Returned ints else Raised ValueError.

(** [''.join(items)], where an item is a [str] or [None]. *)
Fixpoint join (items : list (option str)) : Outcome str :=
  match items with
  | [] => Returned []
  | None :: _ => Raised TypeError
  | Some x :: items' =>
      match join items' with
      | Returned r => Returned (x ++ r)
      | o => o
      end
  end.

(** ** Sessions: sockets, what was sent, what was raised *)

Inductive Peer : Type :=
  | Lpv      (* the client, seen from the relay *)
  | Cloud    (* the authority, seen from the relay *)
  | Hpv.     (* the relay, seen from the authority *)

Inductive Event : Type :=
  | Connect (p : Peer)
  | Send (p : Peer) (bs : bytes)
  | Close (p : Peer).

(** What a [recv] delivers: octets, or an [OSError]. *)
Inductive Recv : Type :=
  | Data (bs : bytes)
  | RecvError.

(** A computation with a log of socket events that may raise. *)
Definition IO (A : Type) : Type := list Event → list Event * Outcome A.

#[export] Instance IO_ret : MRet IO := λ A a tr, (tr, Returned a).

#[export] Instance IO_bind : MBind IO := λ A B k m tr,
  match m tr with
  | (tr', Returned a) => k a tr'
  | (tr', Raised e) => (tr', Raised e)
  | (tr', OutOfFuel) => (tr', OutOfFuel)
  end.

Definition raise {A} (e : Exn) : IO A := λ tr, (tr, Raised e).

Definition emit (ev : Event) : IO unit := λ tr, (tr ++ [ev], Returned tt).

Definition lift {A} (o : Outcome A) : IO A := λ tr, (tr, o).

(** [try: body / except classes: handler] *)
Definition try_except {A} (body : IO A) (classes : Exn → bool)
    (handler : Exn → IO A) : IO A := λ tr,
  match body tr with
  | (tr', Raised e) => if classes e then handler e tr' else (tr', Raised e)
  | r => r
  end.

(** [socket.timeout] and [socket.error] are [OSError]; so are
    [ConnectionRefusedError] and [BrokenPipeError]. *)
Definition os_error (e : Exn) : bool :=
  match e with
  | OSError => true
  | _ => false
  end.

(** [sock.recv(n)]: at most [n] of the octets that arrive. *)
Definition sock_recv (r : Recv) (n : nat) : IO bytes :=
  match r with
  | Data bs => mret (take n bs)
  | RecvError => raise OSError
  end.

(** [sock.connect(...)]: the attempt is logged, a refusal raises. *)
Definition sock_connect (p : Peer) (accepted : bool) : IO unit :=
  emit (Connect p);; if accepted then mret tt else raise OSError.

(** [sock.send(bs)] and [sock.sendall(bs)] *)
Definition sock_send (p : Peer) (ok : bool) (bs : bytes) : IO unit :=
  if ok then emit (Send p bs) else raise OSError.

Definition decode (bs : bytes) : IO str :=
  match utf8_decode bs with
  | Some s => mret s
  | None => raise UnicodeDecodeError
  end.

Definition encode (s : str) : IO bytes :=
  match utf8_encode s with
  | Some bs => mret bs
  | None => raise UnicodeEncodeError
  end.

(** ** The authority's handshake ([CloudServer.py], lines 75-104) *)

(** [probe] is what the accepted peer sends, [send_ok] whether the
    authority's [send] goes through.  The result is the client socket, or
    [None] for the pair [(None, None)]. *)
Definition CloudServer_WaitForConnection (probe : Recv) (send_ok : bool)
  : IO (option Peer) :=
  try_except
    (bs ← sock_recv probe 1024;
     testMessage ← decode bs;
     echo ← encode testMessage;
     sock_send Hpv send_ok echo;;
     mret (Some Hpv))
    os_error
    (λ _, mret None).

(** ** The relay ([HighPowerVehicle.py]) *)

(** A node as the relay handles it: a [str], or [None] when the request
    could not be read. *)
Definition PyNode : Type := option str.

(** Python's [<] on two strings; an order test involving [None] is never
    reached, because a queue that holds [None] holds one entry. *)
Definition pynode_ltb (a b : PyNode) : bool :=
  match a, b with
  | Some x, Some y => str_ltb x y
  | _, _ => false
  end.

(** The surroundings of one round of the relay's loop. *)
Record World : Type := {
  lpv_request : Recv;            (* what [LpvSocket.recv(2)] delivers *)
  lpv_send_ok : bool;            (* whether [LpvSocket.sendall] goes through *)
  cloud_accepts : bool;          (* whether [connect] is accepted *)
  cloud_send_ok : bool;          (* whether the probe can be sent *)
  cloud_echo : Recv;             (* the answer to the probe *)
  cloud_weights : Recv;          (* the serialized graph *)
  pickle_loads : bytes → option (list (@Edge str))
                                 (* [pickle.loads]; [None] is [UnpicklingError] *)
}.

Definition test_message : str := lit "Test connection".

(** Lines 87-137. *)
Definition HPV_ConnectToCloudServer (w : World) : IO (option Peer) :=
  try_except
    (sock_connect Cloud (cloud_accepts w);;
     try_except
       (probe ← encode test_message;
        sock_send Cloud (cloud_send_ok w) probe;;
        bs ← sock_recv (cloud_echo w) 1024;
        response ← decode bs;
        if decide (response = test_message) then mret (Some Cloud) else mret None)
       os_error
       (λ _, mret None))
    os_error
    (λ _, mret None).

(** Lines 149-168. *)
Definition HPV_ReceiveLpvRequest (w : World) : IO (PyNode * PyNode) :=
  try_except
    (bs ← sock_recv (lpv_request w) 2;
     data ← decode bs;
     if decide (length data ≠ 2%nat) then mret (None, None)
     else
       match data !! 0%nat, data !! 1%nat with
       | Some source, Some destination => mret (Some [source], Some [destination])
       | _, _ => raise IndexError
       end)
    os_error
    (λ _, mret (None, None)).

(** Lines 179-198.  The handler reads [e.strerror], which an
    [UnpicklingError] does not have. *)
Definition HPV_ReceiveWeights (w : World) : IO (option (list (@Edge str))) :=
  try_except
    (serializedWeights ← sock_recv (cloud_weights w) 1024;
     match pickle_loads w serializedWeights with
     | Some pathsWeights => mret (Some pathsWeights)
     | None => raise UnpicklingError
     end)
    (λ e, match e with UnpicklingError | OSError => true | _ => false end)
    (λ e, match e with UnpicklingError => raise AttributeError | _ => mret None end).

(** Lines 210-227. *)
Definition HPV_SendShortestPath (w : World) (shortestPath : option (list PyNode))
  : IO unit :=
  try_except
    (match shortestPath with
     | None =>
         code ← lift (bytes_of_ints [-1]);
         sock_send Lpv (lpv_send_ok w) code
     | Some path =>
         path_string ← lift (join path);
         reply ← encode path_string;
         sock_send Lpv (lpv_send_ok w) reply
     end)
    (λ e, match e with OSError | TypeError => true | _ => false end)
    (λ _, mret tt).

(** The received graph as the engine sees it. *)
Definition as_map (weights : list (@Edge str)) : list (@Edge PyNode) :=
  (λ e, (Some e.1.1, Some e.1.2, e.2)) <$> weights.

(** One round of [while True] in [main] (lines 301-325), after [accept]
    has returned the client's socket. *)
Definition main_iteration (w : World) (fuel : nat) : IO unit :=
  '(source, destination) ← HPV_ReceiveLpvRequest w;
  CloudServerSocket ← HPV_ConnectToCloudServer w;
  match CloudServerSocket with
  | Some _ =>
      receivedWeights ← HPV_ReceiveWeights w;
      shortestPath ←
        match receivedWeights with
        | Some weights =>
            lift (HPV_GetShortestPath pynode_ltb fuel source destination (as_map weights))
        | None => raise AttributeError
        end;
      HPV_SendShortestPath w (Some shortestPath)
  | None => mret tt
  end;;
  match CloudServerSocket with
  | Some _ => emit (Close Cloud)
  | None => raise AttributeError
  end;;
  emit (Close Lpv).

#[export] Instance Peer_eq_dec : EqDecision Peer.
Proof. solve_decision. Defined.

(** The octets a log shows as sent to [p], in order. *)
Fixpoint sent_to (p : Peer) (tr : list Event) : bytes :=
  match tr with
  | [] => []
  | Send q bs :: tr' => if decide (p = q) then bs ++ sent_to p tr' else sent_to p tr'
  | _ :: tr' => sent_to p tr'
  end.

(** The octets of the relay's probe, ["Test connection"]. *)
Definition probe_octets : bytes :=
  [84; 101; 115; 116; 32; 99; 111; 110; 110; 101; 99; 116; 105; 111; 110].

(** A world for one round: the client's request, whether the authority
    accepts the connection, what it answers to the probe, and what
    [pickle.loads] makes of the graph it sends.  The serialized graph itself
    is not modelled: [loads] stands for its decoding. *)
Definition world (request : Recv) (accepts : bool) (echo : Recv)
    (loads : option (list (@Edge str))) : World :=
  {| lpv_request := request;
     lpv_send_ok := true;
     cloud_accepts := accepts;
     cloud_send_ok := true;
     cloud_echo := echo;
     cloud_weights := Data [];
     pickle_loads := λ _, loads |}.

(** A client that sends the single octet ["A"], an authority that answers
    the probe and sends the reference topology. *)
Definition short_request_world : World :=
  world (Data (blit "A")) true (Data probe_octets) (Some CloudServer_GlobalGraph).

(** The authority's side of the fetch goes well and yields [weights]. *)
Definition fetch_ok (w : World) (weights : list (@Edge str)) : Prop :=
  cloud_accepts w = true ∧ cloud_send_ok w = true ∧
  cloud_echo w = Data probe_octets ∧
  ∃ serialized, cloud_weights w = Data serialized ∧
                pickle_loads w (take 1024 serialized) = Some weights.

(** The authority's handshake step answers [probe] with the same octets. *)
Definition echoes (probe : bytes) : Prop :=
  CloudServer_WaitForConnection (Data probe) true []
  = ([Send Hpv probe], Returned (Some Hpv)).

(** The round gives up on the client: the request is reported unreadable,
    the authority is not contacted, nothing is sent to the client and
    nothing is raised. *)
Definition aborts_session (w : World) (fuel : nat) : Prop :=
  (HPV_ReceiveLpvRequest w []).2 = Returned (None, None) ∧
  ¬ (Connect Cloud ∈ (main_iteration w fuel []).1) ∧
  sent_to Lpv (main_iteration w fuel []).1 = [] ∧
  (∀ e, (main_iteration w fuel []).2 ≠ Raised e).

(** ** Further invariants of the engine *)

Section EngineInvariants.

Context `{Countable Node}.

(** What the loop keeps whatever the sign of the weights: the source has a
    finite distance, every endpoint of an edge has an entry in [distances],
    every entry of the queue carries a walk from the source, and a node
    whose current distance is not in the queue has had all its edges
    relaxed. *)
Record winv (map : list (@Edge Node)) (s : Node)
    (pend : Node → Z → Node → Z → Prop)
    (distances : gmap Node Dist) (pq : list (@Entry Node)) : Prop := {
  winv_source : ∃ ds, distances !! s = Some (Fin ds);
  winv_dom : ∀ u v w, edge map u v w → is_Some (distances !! v);
  winv_queue : ∀ d n p, (d, n, p) ∈ pq →
    walk map s n p d ∧ ∃ dn, distances !! n = Some (Fin dn) ∧ dn ≤ d;
  winv_open : ∀ x dx, distances !! x = Some (Fin dx) →
    (∃ p, (dx, x, p) ∈ pq) ∨
    (∀ y w, edge map x y w →
       pend x dx y w ∨ ∃ dy, distances !! y = Some (Fin dy) ∧ dy ≤ dx + w)
}.

(** The path [p] of an entry at distance [d] visits no node twice, and
    every node on it has a recorded distance of at most [d]. *)
Definition settled_below (distances : gmap Node Dist) (d : Z) (p : list Node) : Prop :=
  NoDup p ∧ ∀ x, x ∈ p → ∃ dx, distances !! x = Some (Fin dx) ∧ dx ≤ d.

Definition simple_queue (distances : gmap Node Dist) (pq : list (@Entry Node)) : Prop :=
  ∀ d n p, (d, n, p) ∈ pq → settled_below distances d p.

End EngineInvariants.

(** ** The authority's round ([CloudServer.py], lines 116-160) *)

(** Lines 116-132.  [serialized] stands for the octets of
    [pickle.dumps(CloudServer_GlobalGraph)]. *)
Definition CloudServer_SendWeights (serialized : bytes) (send_ok : bool) : IO unit :=
  try_except
    (sock_send Hpv send_ok serialized)
    os_error
    (λ _, mret tt).

(** One round of [while True] in the authority's [main] (lines 150-160):
    [probe] is what the accepted peer sends, [echo_ok] and [weights_ok] tell
    whether the two transmissions go through. *)
Definition CloudServer_iteration (probe : Recv) (echo_ok weights_ok : bool)
    (serialized : bytes) : IO unit :=
  clientSocket ← CloudServer_WaitForConnection probe echo_ok;
  match clientSocket with
  | Some _ => CloudServer_SendWeights serialized weights_ok
  | None => mret tt
  end;;
  match clientSocket with
  | Some p => emit (Close p)
  | None => raise AttributeError
  end.

(** ** The client ([LowPowerVehicle.py]) *)

(** [" -> ".join(response)]: the characters of [response], with an arrow
    between two neighbours. *)
Fixpoint arrow_join (response : str) : str :=
  match response with
  | [] => []
  | [c] => [c]
  | c :: rest => c :: lit " -> " ++ arrow_join rest
  end.

(** The script, for the endpoints it assigns to [source] and [destination]
    (['B'] and ['A'] in the file): [accepted] and [send_ok] tell whether
    the relay accepts the connection and the request goes through, [reply]
    is what the relay answers.  The result is the line the script prints;
    [Hpv] is here the relay as the client sees it. *)
Definition LowPowerVehicle (source destination : str) (accepted send_ok : bool)
    (reply : Recv) : IO str :=
  sock_connect Hpv accepted;;
  message ← encode (source ++ destination);
  sock_send Hpv send_ok message;;
  bs ← sock_recv reply 1024;
  response ← decode bs;
  emit (Close Hpv);;
  mret (lit "Here is the shortest path: " ++ arrow_join response).

(** A character of the ASCII range. *)
Definition ascii (c : Z) : Prop := 0 ≤ c ≤ 127.

(** Every node of the map is a single ASCII character, as the nodes of the
    reference topology are. *)
Definition ascii_nodes (weights : list (@Edge str)) : Prop :=
  Forall (λ e : @Edge str,
            (∃ c, e.1.1 = [c] ∧ ascii c) ∧ (∃ c, e.1.2 = [c] ∧ ascii c))
         weights.

(** ** The graph on the wire *)

(** [pickle.dumps] and [pickle.loads] are the library's: the operations
    below take them as parameters.  [loads] gives [None] where
    [pickle.loads] raises [UnpicklingError]. *)


(** The surroundings of the relay's fetch: what the authority's socket
    delivers after the handshake, and the library's decoder. *)
Definition graph_world (loads : bytes → option (list (@Edge str)))
    (arriving : Recv) : World :=
  {| lpv_request := RecvError;
     lpv_send_ok := true;
     cloud_accepts := true;
     cloud_send_ok := true;
     cloud_echo := Data probe_octets;
     cloud_weights := arriving;
     pickle_loads := loads |}.

(** The graph from the authority to the relay.  The authority serializes it
    and sends it whole ([CloudServer_SendWeights], lines 116-132); the relay
    reads from what was sent and deserializes what it has read
    ([HPV_ReceiveWeights], lines 179-198). *)
Definition transfer (dumps : list (@Edge str) → bytes)
    (loads : bytes → option (list (@Edge str)))
    (graph : list (@Edge str)) : Outcome (option (list (@Edge str))) :=
  let serializedWights := dumps graph in
  let sent := sent_to Hpv (CloudServer_SendWeights serializedWights true []).1 in
  (HPV_ReceiveWeights (graph_world loads (Data sent)) []).2.






(** ** Concrete inputs *)

(** A client that asks for the way from B to A, an authority that answers
    the probe and sends the reference topology. *)
Definition reference_world : World :=
  world (Data (blit "BA")) true (Data probe_octets) (Some CloudServer_GlobalGraph).

(** A map with one edge, of negative weight. *)
Definition negative_map : list (@Edge str) := [(lit "A", lit "B", -1)].

(** Python's [>] on two nodes: the opposite tie-break. *)
Definition str_gtb (a b : str) : bool := str_ltb b a.

(** * Properties of the path engine *)

Section EngineProofs.

Context `{Countable Node}.
Abbreviation Edge := (@Edge Node).
Abbreviation Entry := (@Entry Node).

(** *** The adjacency lists *)

Lemma graph_get_ensure_key k (g : gmap Node (list (Node * Z))) x :
  graph_get (ensure_key k g) x = graph_get g x.
Proof.
  unfold graph_get, ensure_key. destruct (g !! k) eqn:Hk; [done|].
  destruct (decide (k = x)) as [->|Hne].
  - by rewrite lookup_insert_eq, Hk.
  - by rewrite lookup_insert_ne.
Qed.

Lemma ensure_key_present k (g : gmap Node (list (Node * Z))) :
  is_Some (ensure_key k g !! k).
Proof.
  unfold ensure_key. destruct (g !! k) eqn:Hk; [by rewrite Hk|].
  by rewrite lookup_insert_eq.
Qed.

Lemma ensure_key_keeps k (g : gmap Node (list (Node * Z))) x :
  is_Some (g !! x) → is_Some (ensure_key k g !! x).
Proof.
  unfold ensure_key. destruct (g !! k) eqn:Hk; [done|].
  intros Hx. destruct (decide (k = x)) as [->|Hne].
  - by rewrite lookup_insert_eq.
  - by rewrite lookup_insert_ne.
Qed.

Lemma append_to_keeps k a (g : gmap Node (list (Node * Z))) x :
  is_Some (g !! x) → is_Some (append_to k a g !! x).
Proof.
  unfold append_to. intros [l Hl]. rewrite lookup_alter.
  case_decide as Hk; [subst x|]; by rewrite Hl.
Qed.

Lemma graph_get_append_to k a (g : gmap Node (list (Node * Z))) x :
  is_Some (g !! k) →
  graph_get (append_to k a g) x =
  if decide (k = x) then graph_get g x ++ [a] else graph_get g x.
Proof.
  unfold graph_get, append_to. intros [l Hl]. rewrite lookup_alter.
  destruct (decide (k = x)) as [->|Hk]; [by rewrite Hl|done].
Qed.

Lemma add_edge_adj (g : gmap Node (list (Node * Z))) (nodes : gset Node) u v w x a :
  a ∈ graph_get (add_edge (g, nodes) (u, v, w)).1 x ↔
  a ∈ graph_get g x ∨ (x = u ∧ a = (v, w)) ∨ (x = v ∧ a = (u, w)).
Proof.
  simpl.
  rewrite graph_get_append_to
    by (apply append_to_keeps, ensure_key_present).
  rewrite graph_get_append_to
    by (apply ensure_key_keeps, ensure_key_present).
  rewrite !graph_get_ensure_key.
  destruct (decide (v = x)) as [->|Hv], (decide (u = x)) as [->|Hu];
    rewrite ?elem_of_app, ?list_elem_of_singleton; naive_solver.
Qed.

Lemma add_edge_nodes (g : gmap Node (list (Node * Z))) (nodes : gset Node) u v w x :
  x ∈ (add_edge (g, nodes) (u, v, w)).2 ↔ x ∈ nodes ∨ x = u ∨ x = v.
Proof. simpl. set_solver. Qed.

Lemma build_graph_snoc (map : list Edge) e :
  build_graph (map ++ [e]) = add_edge (build_graph map) e.
Proof. unfold build_graph. by rewrite foldl_app. Qed.

Lemma build_graph_adj (map : list Edge) x y w :
  (y, w) ∈ graph_get (build_graph map).1 x ↔ edge map x y w.
Proof.
  unfold edge. induction map as [|[[u v] w'] map IH] using rev_ind.
  - unfold build_graph, graph_get. simpl. rewrite lookup_empty. simpl.
    rewrite !elem_of_nil. tauto.
  - rewrite build_graph_snoc. destruct (build_graph map) as [g nodes].
    rewrite add_edge_adj, IH, !elem_of_app, !list_elem_of_singleton. simpl.
    naive_solver.
Qed.

Lemma build_graph_nodes (map : list Edge) x :
  x ∈ (build_graph map).2 ↔ ∃ y w, edge map x y w.
Proof.
  unfold edge. induction map as [|[[u v] w'] map IH] using rev_ind.
  - unfold build_graph. simpl. split; [set_solver|].
    intros (y & w & Hin). rewrite !elem_of_nil in Hin. tauto.
  - rewrite build_graph_snoc. destruct (build_graph map) as [g nodes].
    rewrite add_edge_nodes. simpl in IH. rewrite IH.
    setoid_rewrite elem_of_app. setoid_rewrite list_elem_of_singleton.
    naive_solver.
Qed.

(** *** Routes and walks *)

Lemma edge_nonneg (map : list Edge) u v w : nonneg map → edge map u v w → 0 ≤ w.
Proof.
  unfold nonneg. rewrite Forall_forall.
  intros Hnn [Hin|Hin]; apply (Hnn _ Hin).
Qed.

Lemma walk_nonneg (map : list Edge) s x p d :
  nonneg map → walk map s x p d → 0 ≤ d.
Proof.
  intros Hnn Hw. induction Hw as [|u v w p d _ IH He]; [done|].
  apply (edge_nonneg _ _ _ _ Hnn) in He. lia.
Qed.

Lemma total_snoc ws w : total (ws ++ [w]) = total ws + w.
Proof. induction ws as [|w' ws IH]; simpl; lia. Qed.

Lemma chain_snoc (map : list Edge) p : ∀ ws u v w,
  chain map p ws → last p = Some u → edge map u v w →
  chain map (p ++ [v]) (ws ++ [w]).
Proof.
  induction p as [|x p IH]; intros ws u v w Hc Hl He; [by destruct ws|].
  destruct p as [|y p].
  - destruct ws; [|done]. simpl in Hl. injection Hl as ->. done.
  - destruct ws as [|w0 ws]; [done|]. destruct Hc as [Hxy Hc].
    split; [done|]. by apply (IH ws u).
Qed.

Lemma walk_route (map : list Edge) s x p d :
  walk map s x p d → ∃ ws, route map s x p ws ∧ total ws = d.
Proof.
  induction 1 as [|u v w p d _ (ws & (Hh & Hl & Hc) & Ht) He].
  - by exists [].
  - exists (ws ++ [w]). split; [|rewrite total_snoc; lia].
    split_and!.
    + destruct p; [done|]. done.
    + apply last_snoc.
    + by apply (chain_snoc _ _ _ u).
Qed.

Lemma chain_walk (map : list Edge) s p : ∀ ws x t q d,
  chain map (x :: p) ws → last (x :: p) = Some t → walk map s x q d →
  walk map s t (q ++ p) (d + total ws).
Proof.
  induction p as [|y p IH]; intros ws x t q d Hc Hl Hw.
  - destruct ws; [|done]. simpl in *. injection Hl as <-.
    by rewrite app_nil_r, Z.add_0_r.
  - destruct ws as [|w ws]; [done|]. destruct Hc as [He Hc].
    rewrite last_cons_cons in Hl.
    replace (q ++ y :: p) with ((q ++ [y]) ++ p) by by rewrite <- app_assoc.
    simpl. rewrite Z.add_assoc. apply (IH ws y); [done..|].
    by apply (walk_step _ _ x).
Qed.

Lemma route_walk (map : list Edge) s t p ws :
  route map s t p ws → walk map s t p (total ws).
Proof.
  intros (Hh & Hl & Hc). destruct p as [|x p]; [done|].
  simpl in Hh. injection Hh as ->.
  apply (chain_walk _ _ _ _ _ _ [s] 0 Hc Hl). constructor.
Qed.

(** *** The termination measure *)

Lemma weigh_insert f (distances : gmap Node Dist) k v v' :
  distances !! k = Some v →
  (weigh f (<[k := v']> distances) + f v = weigh f distances + f v')%nat.
Proof.
  intros Hk. unfold weigh.
  rewrite <- (map_to_list_delete distances k v Hk).
  rewrite <- insert_delete_eq.
  rewrite map_to_list_insert by apply lookup_delete_eq.
  simpl. lia.
Qed.

Lemma smaller_insert (distances : gmap Node Dist) y dn x :
  distances !! y = Some dn → lt_dist x dn = true → 0 ≤ x →
  smaller (<[y := Fin x]> distances) distances.
Proof.
  intros Hy Hlt Hx. unfold smaller.
  pose proof (weigh_insert is_inf _ _ _ (Fin x) Hy) as Hi.
  pose proof (weigh_insert fin_val _ _ _ (Fin x) Hy) as Hf.
  destruct dn as [|z]; simpl in *; [lia|].
  apply bool_decide_eq_true in Hlt. lia.
Qed.

Lemma smaller_trans (d1 d2 d3 : gmap Node Dist) :
  smaller d1 d2 → smaller d2 d3 → smaller d1 d3.
Proof. unfold smaller. lia. Qed.

(** Python's [<] on two distinct nodes. *)
Variable node_ltb : Node → Node → bool.

(** *** The priority queue *)

Lemma entry_ltb_true (a b : Entry) : entry_ltb node_ltb a b = true → a.1.1 ≤ b.1.1.
Proof.
  destruct a as [[d1 n1] p1], b as [[d2 n2] p2]; simpl.
  destruct (decide (d1 = d2)); [lia|].
  intros Hlt%bool_decide_eq_true. lia.
Qed.

Lemma entry_ltb_false (a b : Entry) : entry_ltb node_ltb a b = false → b.1.1 ≤ a.1.1.
Proof.
  destruct a as [[d1 n1] p1], b as [[d2 n2] p2]; simpl.
  destruct (decide (d1 = d2)); [lia|].
  intros Hlt%bool_decide_eq_false. lia.
Qed.

Lemma pop_min_spec (l : list Entry) : ∀ e m r,
  pop_min node_ltb e l = (m, r) →
  (∀ x, x ∈ e :: l ↔ x = m ∨ x ∈ r) ∧
  (∀ x, x ∈ e :: l → m.1.1 ≤ x.1.1) ∧
  length r = length l.
Proof.
  induction l as [|x l IH]; intros e m r Hpop; simpl in Hpop.
  - injection Hpop as <- <-. split_and!; [|intros x Hx|done].
    + intros x. rewrite elem_of_cons. tauto.
    + apply list_elem_of_singleton in Hx. by subst.
  - destruct (pop_min node_ltb x l) as [m0 r0] eqn:Hrec.
    destruct (IH _ _ _ Hrec) as (Hmem & Hmin & Hlen).
    destruct (entry_ltb node_ltb m0 e) eqn:Hlt; injection Hpop as <- <-.
    + apply entry_ltb_true in Hlt. split_and!.
      * intros y. rewrite (elem_of_cons (x :: l)), Hmem, elem_of_cons. tauto.
      * intros y [->|Hy]%elem_of_cons; [done|]. by apply Hmin.
      * simpl. by rewrite Hlen.
    + apply entry_ltb_false in Hlt. split_and!.
      * intros y. rewrite elem_of_cons. tauto.
      * intros y [->|Hy]%elem_of_cons; [done|].
        etrans; [exact Hlt|]. by apply Hmin.
      * done.
Qed.

Lemma heappop_None (pq : list Entry) : heappop node_ltb pq = None → pq = [].
Proof. by destruct pq. Qed.

Lemma heappop_Some (pq : list Entry) m r :
  heappop node_ltb pq = Some (m, r) →
  (∀ x, x ∈ pq ↔ x = m ∨ x ∈ r) ∧
  (∀ x, x ∈ pq → m.1.1 ≤ x.1.1) ∧
  S (length r) = length pq.
Proof.
  destruct pq as [|e l]; [done|]. simpl. intros [= Hpop].
  destruct (pop_min_spec _ _ _ _ Hpop) as (? & ? & ->). done.
Qed.

(** When [<] on nodes is total, so is [<] on entries: two entries of which
    neither is less are the same entry, and the least entry of a queue is
    the same however the queue is laid out. *)
Lemma path_ltb_total (p : list Node) : ∀ q,
  (∀ x y, node_ltb x y = false → node_ltb y x = false → x = y) →
  path_ltb node_ltb p q = false → path_ltb node_ltb q p = false → p = q.
Proof.
  induction p as [|x p IH]; intros [|y q] Htot Hpq Hqp; try done.
  simpl in *. destruct (decide (x = y)) as [->|Hne].
  - rewrite decide_True in Hqp by done. f_equal. by apply IH.
  - rewrite decide_False in Hqp by done. by destruct Hne; apply Htot.
Qed.

Lemma entry_ltb_total (a b : Entry) :
  (∀ x y, node_ltb x y = false → node_ltb y x = false → x = y) →
  entry_ltb node_ltb a b = false → entry_ltb node_ltb b a = false → a = b.
Proof.
  destruct a as [[d1 n1] p1], b as [[d2 n2] p2]; simpl. intros Htot Hab Hba.
  destruct (decide (d1 = d2)) as [->|Hd].
  - rewrite decide_True in Hba by done.
    destruct (decide (n1 = n2)) as [->|Hn].
    + rewrite decide_True in Hba by done.
      by rewrite (path_ltb_total p1 p2).
    + rewrite decide_False in Hba by done. by destruct Hn; apply Htot.
  - rewrite decide_False in Hba by done.
    apply bool_decide_eq_false in Hab, Hba. lia.
Qed.

(** *** The invariant *)

Section Run.

Variables (map : list Edge) (s t : Node).
Hypothesis Hnn : nonneg map.

Lemma inv_weaken (P Q : Node → Z → Node → Z → Prop) distances (pq : list Entry) :
  (∀ x dx y w, P x dx y w → Q x dx y w) →
  inv map s t P distances pq → inv map s t Q distances pq.
Proof.
  intros HPQ [? ? ? ? Hopen ?]. split; try done.
  intros x dx Hx. destruct (Hopen x dx Hx) as [?|Hcl]; [by left|right].
  intros y w He. destruct (Hcl y w He) as [?|?]; [left; by apply HPQ|by right].
Qed.

(** Every walk from the source ends at a node whose recorded distance is
    no larger, or is no shorter than some entry of the queue. *)
Lemma inv_lower_bound distances (pq : list Entry) x q W :
  inv map s t no_pending distances pq → walk map s x q W →
  (∃ dx, distances !! x = Some (Fin dx) ∧ dx ≤ W) ∨
  (∃ d n p, (d, n, p) ∈ pq ∧ d ≤ W).
Proof using Hnn.
  intros Hinv Hw. induction Hw as [|u v w q W Hw IH He].
  - left. exists 0. split; [apply Hinv|done].
  - pose proof (edge_nonneg _ _ _ _ Hnn He) as Hw0.
    destruct IH as [(du & Hu & Hle)|(d & n & p & Hin & Hle)].
    + destruct (inv_open _ _ _ _ _ _ Hinv u du Hu) as [[p Hin]|Hcl].
      * right. exists du, u, p. split; [done|lia].
      * destruct (Hcl v w He) as [[]|(dv & Hv & Hle')].
        left. exists dv. split; [done|lia].
    + right. exists d, n, p. split; [done|lia].
Qed.

Lemma inv_initial (nodes : gset Node) :
  (∀ x, x ∈ nodes ↔ ∃ y w, edge map x y w) →
  inv map s t no_pending (<[s := Fin 0]> (gset_to_gmap Inf nodes))
    (heappush [] (0, s, [s])).
Proof.
  intros Hnodes.
  assert (∀ x dx, <[s := Fin 0]> (gset_to_gmap Inf nodes) !! x = Some (Fin dx) →
                  x = s ∧ dx = 0) as Hfin.
  { intros x dx. rewrite lookup_insert_Some, lookup_gset_to_gmap_Some.
    by intros [[-> [= <-]]|[_ [_ [=]]]]. }
  split.
  - apply lookup_insert_eq.
  - intros u v w He. rewrite lookup_insert_is_Some'. right.
    exists Inf. apply lookup_gset_to_gmap_Some. split; [|done].
    apply Hnodes. exists u, w. destruct He; [by right|by left].
  - intros x dx [-> ->]%Hfin. done.
  - intros d n p [= -> -> ->]%list_elem_of_singleton. split; [constructor|].
    exists 0. by rewrite lookup_insert_eq.
  - intros x dx [-> ->]%Hfin. left. exists [s]. by apply list_elem_of_singleton.
  - intros dd [<- ->]%Hfin. exists [t]. by apply list_elem_of_singleton.
Qed.

(** One improving neighbour: the state after [distances[y] = d + w] and
    the push keeps the invariant, with one pending edge less. *)
Lemma inv_improve n d p y w nbrs distances (pq : list Entry) dn :
  walk map s n p d → edge map n y w →
  distances !! y = Some dn → lt_dist (d + w) dn = true →
  inv map s t (pending n d ((y, w) :: nbrs)) distances pq →
  inv map s t (pending n d nbrs) (<[y := Fin (d + w)]> distances)
    (heappush pq (d + w, y, p ++ [y])).
Proof using Hnn.
  intros Hw He Hy Hlt [Hsrc Hdom Hpos Hq Hopen Hdest].
  pose proof (edge_nonneg _ _ _ _ Hnn He) as Hw0.
  pose proof (walk_nonneg _ _ _ _ _ Hnn Hw) as Hd0.
  unfold heappush. split.
  - rewrite lookup_insert_ne; [done|]. intros ->.
    rewrite Hsrc in Hy. injection Hy as <-.
    apply bool_decide_eq_true in Hlt. lia.
  - intros u v w' He'. rewrite lookup_insert_is_Some'. right. by eapply Hdom.
  - intros x dx. rewrite lookup_insert_Some.
    intros [[<- [= <-]]|[_ Hx]]; [lia|by eapply Hpos].
  - intros d' n' p' [Hin|[= -> -> ->]%list_elem_of_singleton]%elem_of_app.
    + destruct (Hq _ _ _ Hin) as [Hw' (dn' & Hn' & Hle)]. split; [done|].
      destruct (decide (y = n')) as [->|Hne].
      * exists (d + w). rewrite lookup_insert_eq. split; [done|].
        rewrite Hy in Hn'. injection Hn' as ->.
        apply bool_decide_eq_true in Hlt. lia.
      * exists dn'. by rewrite lookup_insert_ne.
    + split; [by eapply walk_step|]. exists (d + w).
      by rewrite lookup_insert_eq.
  - intros x dx. rewrite lookup_insert_Some. intros [[<- [= <-]]|[Hne Hx]].
    + left. exists (p ++ [y]). apply elem_of_app. right. by left.
    + destruct (Hopen x dx Hx) as [[p0 Hin]|Hcl].
      * left. exists p0. apply elem_of_app. by left.
      * right. intros y' w' He'.
        destruct (Hcl y' w' He') as [(-> & -> & Hin)|(dy & Hy' & Hle)].
        -- apply elem_of_cons in Hin as [[= -> ->]|Hin].
           ++ right. exists (d + w). by rewrite lookup_insert_eq.
           ++ by left.
        -- right. destruct (decide (y = y')) as [->|Hne'].
           ++ exists (d + w). rewrite lookup_insert_eq. split; [done|].
              rewrite Hy in Hy'. injection Hy' as ->.
              apply bool_decide_eq_true in Hlt. lia.
           ++ exists dy. by rewrite lookup_insert_ne.
  - intros dd. rewrite lookup_insert_Some. intros [[<- [= <-]]|[Hne Ht]].
    + exists (p ++ [y]). apply elem_of_app. right. by left.
    + destruct (Hdest dd Ht) as [p0 Hin]. exists p0. apply elem_of_app. by left.
Qed.

(** A neighbour that does not improve is no longer pending. *)
Lemma inv_skip n d y w nbrs distances (pq : list Entry) dn :
  distances !! y = Some dn → lt_dist (d + w) dn = false →
  inv map s t (pending n d ((y, w) :: nbrs)) distances pq →
  inv map s t (pending n d nbrs) distances pq.
Proof.
  intros Hy Hlt [? ? ? ? Hopen ?]. split; try done.
  intros x dx Hx. destruct (Hopen x dx Hx) as [?|Hcl]; [by left|right].
  intros y' w' He'. destruct (Hcl y' w' He') as [(-> & -> & Hin)|?]; [|by right].
  apply elem_of_cons in Hin as [[= -> ->]|Hin]; [right|by left].
  destruct dn as [|dy]; [done|]. exists dy. split; [done|].
  apply bool_decide_eq_false in Hlt. lia.
Qed.

(** The [for] loop never raises, restores the invariant, and either leaves
    the state as it was or makes [distances] smaller. *)
Lemma relax_spec n d p (nbrs : list (Node * Z)) : ∀ distances (pq : list Entry),
  walk map s n p d →
  distances !! n = Some (Fin d) →
  (∀ y w, (y, w) ∈ nbrs → edge map n y w) →
  inv map s t (pending n d nbrs) distances pq →
  ∃ distances' pq',
    relax d p nbrs distances pq = Returned (distances', pq') ∧
    inv map s t no_pending distances' pq' ∧
    ((distances' = distances ∧ pq' = pq) ∨ smaller distances' distances).
Proof using Hnn.
  induction nbrs as [|[y w] nbrs IH]; intros distances pq Hw Hn Hnb Hinv.
  - exists distances, pq. split; [done|]. split; [|by left].
    eapply inv_weaken; [|exact Hinv].
    by intros x dx y w (_ & _ & ?%elem_of_nil).
  - simpl.
    assert (edge map n y w) as He by (apply Hnb; left).
    pose proof (edge_nonneg _ _ _ _ Hnn He) as Hw0.
    pose proof (walk_nonneg _ _ _ _ _ Hnn Hw) as Hd0.
    destruct (inv_dom _ _ _ _ _ _ Hinv n y w He) as [dn Hy]. rewrite Hy.
    destruct (lt_dist (d + w) dn) eqn:Hlt.
    + assert (y ≠ n) as Hyn.
      { intros ->. rewrite Hn in Hy. injection Hy as <-.
        apply bool_decide_eq_true in Hlt. lia. }
      destruct (IH (<[y := Fin (d + w)]> distances)
                  (heappush pq (d + w, y, p ++ [y])))
        as (distances' & pq' & Hrun & Hinv' & Hm).
      * done.
      * by rewrite lookup_insert_ne.
      * intros; apply Hnb; by right.
      * by eapply inv_improve.
      * exists distances', pq'. split; [done|]. split; [done|]. right.
        assert (smaller (<[y := Fin (d + w)]> distances) distances) as Hsm
          by (eapply smaller_insert; [done..|lia]).
        destruct Hm as [[-> ->]|Hm]; [done|]. by eapply smaller_trans.
    + destruct (IH distances pq) as (distances' & pq' & Hrun & Hinv' & Hm).
      * done.
      * done.
      * intros; apply Hnb; by right.
      * by eapply inv_skip.
      * eauto.
Qed.

(** Taking a stale entry off the queue. *)
Lemma inv_pop_stale distances (pq pq' : list Entry) d n p dn :
  heappop node_ltb pq = Some ((d, n, p), pq') → n ≠ t →
  distances !! n = Some dn → gt_dist d dn = true →
  inv map s t no_pending distances pq → inv map s t no_pending distances pq'.
Proof.
  intros (Hmem & _ & _)%heappop_Some Hnt Hn Hgt [? ? ? Hq Hopen Hdest].
  split; try done.
  - intros d' n' p' Hin. apply Hq, Hmem. by right.
  - intros x dx Hx. destruct (Hopen x dx Hx) as [[p0 Hin]|?]; [left|by right].
    apply Hmem in Hin as [[= -> -> ->]|Hin]; [|by exists p0].
    rewrite Hn in Hx. injection Hx as ->.
    apply bool_decide_eq_true in Hgt. lia.
  - intros dd Ht. destruct (Hdest dd Ht) as [p0 Hin].
    apply Hmem in Hin as [[= -> -> ->]|Hin]; [done|by exists p0].
Qed.

(** Taking a current entry off the queue: all edges of its node are pending. *)
Lemma inv_pop_fresh distances (pq pq' : list Entry) d n p dn :
  heappop node_ltb pq = Some ((d, n, p), pq') → n ≠ t →
  distances !! n = Some dn → gt_dist d dn = false →
  inv map s t no_pending distances pq →
  distances !! n = Some (Fin d) ∧
  inv map s t (pending n d (graph_get (build_graph map).1 n)) distances pq'.
Proof.
  intros (Hmem & _ & _)%heappop_Some Hnt Hn Hgt Hinv.
  assert (dn = Fin d) as ->.
  { destruct (inv_queue _ _ _ _ _ _ Hinv d n p) as [_ (d' & Hn' & Hle)].
    { apply Hmem. by left. }
    rewrite Hn in Hn'. injection Hn' as ->.
    apply bool_decide_eq_false in Hgt. f_equal. lia. }
  split; [done|]. destruct Hinv as [? ? ? Hq Hopen Hdest]. split; try done.
  - intros d' n' p' Hin. apply Hq, Hmem. by right.
  - intros x dx Hx. destruct (Hopen x dx Hx) as [[p0 Hin]|Hcl].
    + apply Hmem in Hin as [[= -> -> ->]|Hin]; [right|left; by exists p0].
      intros y w He. left. split_and!; [done..|]. by apply build_graph_adj.
    + right. intros y w He. by destruct (Hcl y w He) as [[]|?]; right.
  - intros dd Ht. destruct (Hdest dd Ht) as [p0 Hin].
    apply Hmem in Hin as [[= -> -> ->]|Hin]; [done|by exists p0].
Qed.

(** The [while] loop ends, raises nothing, and returns what [post] says. *)
Lemma dijkstra_loop_spec : ∀ a b c distances (pq : list Entry),
  weigh is_inf distances = a → weigh fin_val distances = b → length pq = c →
  inv map s t no_pending distances pq →
  ∃ fuel r,
    dijkstra_loop node_ltb fuel (build_graph map).1 t distances pq = Returned r ∧
    post map s t r.
Proof using Hnn.
  intros a. induction a as [a IHa] using lt_wf_ind.
  intros b. induction b as [b IHb] using lt_wf_ind.
  intros c. induction c as [c IHc] using lt_wf_ind.
  intros distances pq Ha Hb Hc Hinv.
  destruct (heappop node_ltb pq) as [[[[d n] p] pq']|] eqn:Hpop.
  - destruct (heappop_Some _ _ _ Hpop) as (Hmem & Hmin & Hlen).
    assert ((d, n, p) ∈ pq) as Hin by (apply Hmem; by left).
    destruct (inv_queue _ _ _ _ _ _ Hinv d n p Hin) as [Hw (dn & Hn & Hle)].
    destruct (decide (n = t)) as [->|Hnt].
    + exists 1%nat, p. simpl. rewrite Hpop, decide_True by done.
      split; [done|]. right. exists d. split; [done|]. intros q W Hq.
      destruct (inv_lower_bound _ _ _ _ _ Hinv Hq)
        as [(dx & Hx & Hle')|(d' & n' & p' & Hin' & Hle')].
      * destruct (inv_dest _ _ _ _ _ _ Hinv dx Hx) as [p0 Hin0].
        specialize (Hmin _ Hin0). simpl in Hmin. lia.
      * specialize (Hmin _ Hin'). simpl in Hmin. lia.
    + destruct (gt_dist d (Fin dn)) eqn:Hgt.
      * destruct (IHc (length pq') ltac:(lia) distances pq')
          as (fuel & r & Hrun & Hpost); [done..|by eapply inv_pop_stale|].
        exists (S fuel), r. simpl.
        by rewrite Hpop, decide_False, Hn, Hgt by done.
      * destruct (inv_pop_fresh _ _ _ _ _ _ _ Hpop Hnt Hn Hgt Hinv) as [Hn' Hinv'].
        destruct (relax_spec n d p (graph_get (build_graph map).1 n) distances pq' Hw Hn')
          as (distances' & pq'' & Hrel & Hinv'' & Hm); [|done|].
        { intros y w Hy. by apply build_graph_adj. }
        assert (∃ fuel r,
          dijkstra_loop node_ltb fuel (build_graph map).1 t distances' pq''
            = Returned r ∧ post map s t r) as (fuel & r & Hrun & Hpost).
        { destruct Hm as [[-> ->]|[Hlt|[Heq Hlt]]].
          - apply (IHc (length pq')); [lia|done..].
          - eapply (IHa _ ltac:(by rewrite <- Ha)); done.
          - eapply (IHb _ ltac:(by rewrite <- Hb)); [by rewrite Heq|done..]. }
        exists (S fuel), r. simpl.
        by rewrite Hpop, decide_False, Hn, Hgt, Hrel by done.
  - apply heappop_None in Hpop as Hnil. subst pq.
    exists 1%nat, []. split; [done|]. left. split; [done|]. intros q W Hq.
    destruct (inv_lower_bound _ _ _ _ _ Hinv Hq)
      as [(dx & Hx & _)|(d' & n' & p' & Hin' & _)].
    + destruct (inv_dest _ _ _ _ _ _ Hinv dx Hx) as [p0 Hin0].
      by apply elem_of_nil in Hin0.
    + by apply elem_of_nil in Hin'.
Qed.

End Run.

(** More fuel does not change a result. *)
Lemma dijkstra_loop_more fuel : ∀ graph t distances (pq : list Entry) r fuel',
  dijkstra_loop node_ltb fuel graph t distances pq = Returned r →
  (fuel ≤ fuel')%nat →
  dijkstra_loop node_ltb fuel' graph t distances pq = Returned r.
Proof.
  induction fuel as [|fuel IH]; intros graph t distances pq r fuel' Hrun Hle;
    [done|].
  destruct fuel' as [|fuel']; [lia|]. simpl in *.
  destruct (heappop node_ltb pq) as [[[[d n] p] pq']|]; [|done].
  destruct (decide (n = t)); [done|].
  destruct (distances !! n) as [dn|]; [|done].
  destruct (gt_dist d dn); [apply IH; [done|lia]|].
  destruct (relax d p (graph_get graph n) distances pq') as [[distances' pq'']| |];
    [|done..].
  apply IH; [done|lia].
Qed.

(** The engine on a map with non-negative weights: with enough fuel it
    returns, and what it returns is either the empty list when no walk leads
    to the destination, or a walk of least weight. *)
Lemma HPV_GetShortestPath_post (map : list Edge) s t :
  nonneg map →
  ∃ fuel0 r,
    (∀ fuel, (fuel0 ≤ fuel)%nat →
       HPV_GetShortestPath node_ltb fuel s t map = Returned r) ∧
    post map s t r.
Proof.
  intros Hnn. unfold HPV_GetShortestPath.
  pose proof (build_graph_nodes map) as Hnodes.
  pose proof (dijkstra_loop_spec map s t Hnn) as Hloop.
  destruct (build_graph map) as [graph nodes]. simpl in *.
  destruct (Hloop _ _ _ _ _ eq_refl eq_refl eq_refl (inv_initial map s t nodes Hnodes))
    as (fuel0 & r & Hrun & Hpost).
  exists fuel0, r. split; [|done]. intros fuel Hle.
  by eapply dijkstra_loop_more.
Qed.

Lemma HPV_GetShortestPath_more (map : list Edge) s t fuel fuel' r :
  HPV_GetShortestPath node_ltb fuel s t map = Returned r →
  (fuel ≤ fuel')%nat →
  HPV_GetShortestPath node_ltb fuel' s t map = Returned r.
Proof.
  unfold HPV_GetShortestPath. destruct (build_graph map) as [graph nodes].
  apply dijkstra_loop_more.
Qed.

(** The first entry taken from the queue is the source itself. *)
Lemma HPV_GetShortestPath_first (map : list Edge) s fuel :
  HPV_GetShortestPath node_ltb (S fuel) s s map = Returned [s].
Proof.
  unfold HPV_GetShortestPath. destruct (build_graph map) as [graph nodes].
  simpl. by rewrite decide_True.
Qed.

(** A walk leaves the source only over an edge of the source and arrives
    only over an edge of its end. *)
Lemma walk_ends (map : list Edge) s x p d :
  walk map s x p d →
  x = s ∨ ((∃ y w, edge map s y w) ∧ (∃ y w, edge map x y w)).
Proof.
  induction 1 as [|u v w p d _ IH He]; [by left|right].
  assert (edge map v u w) as He' by (destruct He; [by right|by left]).
  split; [|by exists u, w].
  destruct IH as [Hu|[Hs _]]; [|done]. subst u. by exists v, w.
Qed.

Lemma isolated_unreachable (map : list Edge) s t :
  s ≠ t → isolated map s ∨ isolated map t → ¬ reachable map s t.
Proof.
  intros Hne Hiso (p & ws & Hr). apply route_walk, walk_ends in Hr.
  destruct Hr as [->|[(y & w & Hs) (y' & w' & Ht)]]; [done|].
  destruct Hiso as [Hiso|Hiso]; eapply Hiso; done.
Qed.

(** C1. On a map with non-negative weights, for a destination [t] that is
    reachable from [s], the engine returns (given enough rounds of its loop)
    a sequence [p] that starts with [s], ends with [t], whose consecutive
    nodes are joined by edges of the map taken in either direction, and the
    weights [ws] of these edges sum to the least weight of any route from
    [s] to [t]. *)
Theorem HPV_GetShortestPath_shortest (map : list Edge) (s t : Node) :
  nonneg map → reachable map s t →
  ∃ fuel0 p ws,
    (∀ fuel, (fuel0 ≤ fuel)%nat →
       HPV_GetShortestPath node_ltb fuel s t map = Returned p) ∧
    head p = Some s ∧ last p = Some t ∧ chain map p ws ∧
    (∀ p' ws', route map s t p' ws' → total ws ≤ total ws').
Proof.
  intros Hnn (q & qs & Hq%route_walk).
  destruct (HPV_GetShortestPath_post map s t Hnn)
    as (fuel0 & p & Hrun & [[_ Hno]|(d & Hw & Hmin)]).
  { by destruct (Hno _ _ Hq). }
  destruct (walk_route _ _ _ _ _ Hw) as (ws & (Hh & Hl & Hc) & Ht).
  exists fuel0, p, ws. split_and!; try done.
  intros p' ws' Hr%route_walk. rewrite Ht. by eapply Hmin.
Qed.

(** C5. On a map with non-negative weights, when [t] is not reachable from
    [s] (in particular when [s] and [t] differ and one of them is an
    endpoint of no edge) the engine returns the empty list: it does not
    raise, and a node the map does not mention is a node without edges. *)
Theorem HPV_GetShortestPath_no_path (map : list Edge) (s t : Node) :
  nonneg map →
  ¬ reachable map s t ∨ (s ≠ t ∧ (isolated map s ∨ isolated map t)) →
  ∃ fuel0, ∀ fuel, (fuel0 ≤ fuel)%nat →
    HPV_GetShortestPath node_ltb fuel s t map = Returned [].
Proof.
  intros Hnn Hun.
  assert (¬ reachable map s t) as Hno.
  { destruct Hun as [?|[? ?]]; [done|by apply isolated_unreachable]. }
  destruct (HPV_GetShortestPath_post map s t Hnn)
    as (fuel0 & p & Hrun & [[-> _]|(d & Hw & _)]).
  - by exists fuel0.
  - destruct Hno. destruct (walk_route _ _ _ _ _ Hw) as (ws & Hr & _).
    by exists p, ws.
Qed.

(** C6. For a node [s] that the map mentions, a query from [s] to [s]
    returns [[s]], a route without edges, of total weight 0. *)
Theorem HPV_GetShortestPath_self_present (map : list Edge) (s : Node) (fuel : nat) :
  s ∈ (build_graph map).2 →
  HPV_GetShortestPath node_ltb (S fuel) s s map = Returned [s] ∧
  route map s s [s] [] ∧ total [] = 0.
Proof. intros _. split; [apply HPV_GetShortestPath_first|done]. Qed.

(** C10. For every map and every node [s], mentioned by the map or not, a
    query from [s] to [s] returns [[s]] in the first round of the loop: the
    test against the destination comes before any lookup in [distances] or
    in the adjacency lists, so the answer is never the empty list. *)
Theorem HPV_GetShortestPath_self_any (map : list Edge) (s : Node) (fuel : nat) :
  HPV_GetShortestPath node_ltb (S fuel) s s map = Returned [s] ∧
  HPV_GetShortestPath node_ltb (S fuel) s s map ≠ Returned [].
Proof. by rewrite HPV_GetShortestPath_first. Qed.

End EngineProofs.

(** * Properties of the text codec *)

Ltac unbool :=
  unfold cont, between in *;
  repeat match goal with
  | H : _ && _ = true |- _ => apply andb_true_iff in H as [? ?]
  | H : bool_decide _ = true |- _ => apply bool_decide_eq_true in H
  | H : bool_decide _ = false |- _ => apply bool_decide_eq_false in H
  end.

Ltac divlia := Z.to_euclidean_division_equations; lia.

Lemma utf8_encode_char_2 b1 b2 :
  between 194 b1 223 = true → cont b2 = true →
  utf8_encode_char ((b1 - 192) * 64 + (b2 - 128)) = Some [b1; b2].
Proof.
  intros H1 H2. unbool. unfold utf8_encode_char, between.
  rewrite bool_decide_eq_false_2, bool_decide_eq_true_2 by lia.
  repeat f_equal; divlia.
Qed.

Lemma utf8_encode_char_3 b1 b2 b3 :
  between 224 b1 239 = true →
  between (if bool_decide (b1 = 224) then 160 else 128) b2
          (if bool_decide (b1 = 237) then 159 else 191) = true →
  cont b3 = true →
  utf8_encode_char ((b1 - 224) * 4096 + (b2 - 128) * 64 + (b3 - 128))
  = Some [b1; b2; b3].
Proof.
  intros H1 H2 H3. unbool.
  assert (128 ≤ b2 ≤ 191 ∧ (b1 = 224 → 160 ≤ b2) ∧ (b1 = 237 → b2 ≤ 159))
    as (Hb2 & Hlo & Hhi) by (repeat case_bool_decide; lia).
  clear H2. unfold utf8_encode_char, between.
  rewrite !bool_decide_eq_false_2 by lia.
  rewrite bool_decide_eq_true_2 by lia.
  repeat f_equal; divlia.
Qed.

Lemma utf8_encode_char_4 b1 b2 b3 b4 :
  between 240 b1 244 = true →
  between (if bool_decide (b1 = 240) then 144 else 128) b2
          (if bool_decide (b1 = 244) then 143 else 191) = true →
  cont b3 = true → cont b4 = true →
  utf8_encode_char ((b1 - 240) * 262144 + (b2 - 128) * 4096
                    + (b3 - 128) * 64 + (b4 - 128))
  = Some [b1; b2; b3; b4].
Proof.
  intros H1 H2 H3 H4. unbool.
  assert (128 ≤ b2 ≤ 191 ∧ (b1 = 240 → 144 ≤ b2) ∧ (b1 = 244 → b2 ≤ 143))
    as (Hb2 & Hlo & Hhi) by (repeat case_bool_decide; lia).
  clear H2. unfold utf8_encode_char, between.
  rewrite !bool_decide_eq_false_2 by lia.
  rewrite bool_decide_eq_true_2 by lia.
  repeat f_equal; divlia.
Qed.

(** Encoding what was decoded gives the octets back. *)
Lemma utf8_encode_decode_bounded (n : nat) : ∀ bs s,
  (length bs < n)%nat → utf8_decode bs = Some s → utf8_encode s = Some bs.
Proof.
  induction n as [|n IH]; [lia|]. intros [|b1 r1] s Hlen Hdec; simpl in Hdec.
  { by injection Hdec as <-. }
  destruct (between 0 b1 127) eqn:H1.
  { destruct (utf8_decode r1) as [s'|] eqn:Hr; [|done]. injection Hdec as <-.
    simpl. rewrite (IH r1 s') by (simpl in Hlen; lia || done).
    unfold utf8_encode_char. by rewrite H1. }
  destruct (between 194 b1 223) eqn:H2.
  { destruct r1 as [|b2 r2]; [done|]. destruct (cont b2) eqn:Hc2; [|done].
    destruct (utf8_decode r2) as [s'|] eqn:Hr; [|done]. injection Hdec as <-.
    simpl. rewrite utf8_encode_char_2 by done.
    by rewrite (IH r2 s') by (simpl in Hlen; lia || done). }
  destruct (between 224 b1 239) eqn:H3.
  { destruct r1 as [|b2 [|b3 r3]]; [done..|].
    destruct (between _ b2 _ && cont b3) eqn:Hc; [|done].
    apply andb_true_iff in Hc as [Hc2 Hc3].
    destruct (utf8_decode r3) as [s'|] eqn:Hr; [|done]. injection Hdec as <-.
    simpl. rewrite utf8_encode_char_3 by done.
    by rewrite (IH r3 s') by (simpl in Hlen; lia || done). }
  destruct (between 240 b1 244) eqn:H4; [|done].
  destruct r1 as [|b2 [|b3 [|b4 r4]]]; [done..|].
  destruct (between _ b2 _ && cont b3 && cont b4) eqn:Hc; [|done].
  apply andb_true_iff in Hc as [[Hc2 Hc3]%andb_true_iff Hc4].
  destruct (utf8_decode r4) as [s'|] eqn:Hr; [|done]. injection Hdec as <-.
  simpl. rewrite utf8_encode_char_4 by done.
  by rewrite (IH r4 s') by (simpl in Hlen; lia || done).
Qed.

Lemma utf8_encode_decode (bs : bytes) (s : str) :
  utf8_decode bs = Some s → utf8_encode s = Some bs.
Proof. apply (utf8_encode_decode_bounded (S (length bs))). lia. Qed.

(** * The reference topology *)

(** Python's order on strings is total. *)
Lemma str_ltb_total (a : str) : ∀ b,
  str_ltb a b = false → str_ltb b a = false → a = b.
Proof.
  induction a as [|x a IH]; intros [|y b] Hab Hba; try done.
  simpl in *. destruct (decide (x = y)) as [->|Hne].
  - rewrite decide_True in Hba by done. f_equal. by apply IH.
  - rewrite decide_False in Hba by done.
    apply bool_decide_eq_false in Hab, Hba. lia.
Qed.

(** Membership in a list that is written out. *)
Ltac in_list :=
  repeat first [apply list_elem_of_here | apply list_elem_of_further].

Lemma reference_nonneg : nonneg CloudServer_GlobalGraph.
Proof. unfold nonneg, CloudServer_GlobalGraph. repeat constructor; simpl; lia. Qed.

Lemma reference_B_D w : edge CloudServer_GlobalGraph (lit "B") (lit "D") w → w = 2.
Proof.
  intros [Hin|Hin]; unfold CloudServer_GlobalGraph in Hin;
    repeat (apply elem_of_cons in Hin as [[=]|Hin]; try done);
    by apply elem_of_nil in Hin.
Qed.

Lemma reference_D_A w : edge CloudServer_GlobalGraph (lit "D") (lit "A") w → w = 1.
Proof.
  intros [Hin|Hin]; unfold CloudServer_GlobalGraph in Hin;
    repeat (apply elem_of_cons in Hin as [[=]|Hin]; try done);
    by apply elem_of_nil in Hin.
Qed.

Lemma reference_B_A_run :
  HPV_GetShortestPath str_ltb 4 (lit "B") (lit "A") CloudServer_GlobalGraph
  = Returned [lit "B"; lit "D"; lit "A"].
Proof. by vm_compute. Qed.

(** C7. On the reference topology the query from B to A returns a sequence
    that starts with B and ends with A, whose consecutive nodes are joined by
    edges of weights that sum to 3, and no route from B to A weighs less.
    The relay, given the request [b'BA'] and that topology by the authority,
    computes the same sequence and sends its nodes to the client. *)
Theorem reference_query_B_A :
  ∃ p ws,
    (∀ fuel, (4 ≤ fuel)%nat →
       HPV_GetShortestPath str_ltb fuel (lit "B") (lit "A") CloudServer_GlobalGraph
       = Returned p) ∧
    head p = Some (lit "B") ∧ last p = Some (lit "A") ∧
    chain CloudServer_GlobalGraph p ws ∧ total ws = 3 ∧
    (∀ p' ws', route CloudServer_GlobalGraph (lit "B") (lit "A") p' ws' →
               3 ≤ total ws') ∧
    (∀ fuel, (4 ≤ fuel)%nat →
       HPV_GetShortestPath pynode_ltb fuel (Some (lit "B")) (Some (lit "A"))
         (as_map CloudServer_GlobalGraph) = Returned (Some <$> p)) ∧
    main_iteration
      (world (Data (blit "BA")) true (Data probe_octets)
         (Some CloudServer_GlobalGraph)) 4 []
    = ([Connect Cloud; Send Cloud probe_octets;
        Send Lpv (blit "BDA"); Close Cloud; Close Lpv], Returned tt).
Proof.
  exists [lit "B"; lit "D"; lit "A"], [2; 1].
  assert (∀ fuel, (4 ≤ fuel)%nat →
    HPV_GetShortestPath str_ltb fuel (lit "B") (lit "A") CloudServer_GlobalGraph
    = Returned [lit "B"; lit "D"; lit "A"]) as Hrun.
  { intros fuel Hle. eapply HPV_GetShortestPath_more; [apply reference_B_A_run|done]. }
  split_and!; try done.
  - split; [|split; [|done]]; right; in_list.
  - intros p' ws' Hr%route_walk.
    destruct (HPV_GetShortestPath_post str_ltb CloudServer_GlobalGraph
                (lit "B") (lit "A") reference_nonneg)
      as (fuel0 & r & Hrun' & [[_ Hno]|(d & Hw & Hmin)]).
    { by destruct (Hno _ _ Hr). }
    specialize (Hrun (fuel0 `max` 4)%nat ltac:(lia)).
    rewrite Hrun' in Hrun by lia. injection Hrun as ->.
    apply walk_route in Hw as (ws & (_ & _ & Hc) & <-).
    destruct ws as [|w1 [|w2 [|? ?]]]; try done.
    + by destruct Hc.
    + destruct Hc as (H1%reference_B_D & H2%reference_D_A & _). subst.
      by apply Hmin in Hr.
    + by destruct Hc as (_ & _ & ?).
  - intros fuel Hle. eapply HPV_GetShortestPath_more; [|exact Hle].
    by vm_compute.
Qed.

(** * Properties of the sessions *)

(** Unfolds the plumbing of [IO] and computes. *)
Ltac run_io :=
  unfold try_except, sock_connect, sock_send, sock_recv, decode, encode, lift,
         raise, emit, mbind, IO_bind, mret, IO_ret;
  cbn -[test_message probe_octets utf8_decode utf8_encode take HPV_GetShortestPath].

Lemma probe_octets_encode : utf8_encode test_message = Some probe_octets.
Proof. reflexivity. Qed.

Lemma probe_octets_decode : utf8_decode probe_octets = Some test_message.
Proof. reflexivity. Qed.

(** The authority answers a well-formed probe with the probe. *)
Lemma CloudServer_WaitForConnection_echo (probe : bytes) (msg : str) tr :
  (length probe ≤ 1024)%nat → utf8_decode probe = Some msg →
  CloudServer_WaitForConnection (Data probe) true tr
  = (tr ++ [Send Hpv probe], Returned (Some Hpv)).
Proof.
  intros Hlen Hdec. pose proof (utf8_encode_decode _ _ Hdec) as Henc.
  unfold CloudServer_WaitForConnection. run_io.
  rewrite take_ge by done. rewrite Hdec. by rewrite Henc.
Qed.

(** The relay accepts the echo of its own probe. *)
Lemma HPV_ConnectToCloudServer_ok (w : World) tr :
  cloud_accepts w = true → cloud_send_ok w = true →
  cloud_echo w = Data probe_octets →
  HPV_ConnectToCloudServer w tr
  = (tr ++ [Connect Cloud; Send Cloud probe_octets], Returned (Some Cloud)).
Proof.
  intros Ha Hs He.
  unfold HPV_ConnectToCloudServer. rewrite Ha, Hs, He. run_io.
  rewrite probe_octets_encode.
  replace (take 1024 probe_octets) with probe_octets by done.
  rewrite probe_octets_decode, decide_True by done.
  by rewrite <- app_assoc.
Qed.

(** C9 (as amended). For every probe of at most 1024 octets that is
    well-formed UTF-8, the authority's handshake step sends back exactly the
    same octets; and when the relay's own probe comes back that way, the
    relay's comparison succeeds and it keeps the connection. *)
Theorem handshake_echo (probe : bytes) (msg : str) :
  (length probe ≤ 1024)%nat → utf8_decode probe = Some msg →
  echoes probe ∧
  (∀ w, cloud_accepts w = true → cloud_send_ok w = true →
        cloud_echo w = Data probe_octets →
        HPV_ConnectToCloudServer w []
        = ([Connect Cloud; Send Cloud probe_octets], Returned (Some Cloud))).
Proof.
  intros Hlen Hdec. split.
  - by apply (CloudServer_WaitForConnection_echo probe msg []).
  - intros w. apply (HPV_ConnectToCloudServer_ok w []).
Qed.

(** A probe that is not text is not echoed: decoding raises, and the
    handler of the handshake does not catch it. *)
Lemma handshake_not_echoed : ¬ echoes [255].
Proof. unfold echoes. by vm_compute. Qed.

Lemma HPV_ReceiveLpvRequest_short (w : World) (bs : bytes) (data : str) tr :
  lpv_request w = Data bs → (length bs < 2)%nat → utf8_decode bs = Some data →
  HPV_ReceiveLpvRequest w tr = (tr, Returned (None, None)).
Proof.
  intros Hreq Hlen Hdec. unfold HPV_ReceiveLpvRequest.
  rewrite Hreq. run_io. rewrite take_ge by lia. rewrite Hdec.
  destruct bs as [|b [|b' bs]]; [| |simpl in Hlen; lia].
  - by injection Hdec as <-.
  - simpl in Hdec. destruct (between 0 b 127); [by injection Hdec as <-|].
    by repeat (destruct (between _ _ _) in Hdec).
Qed.

Lemma HPV_ReceiveWeights_ok (w : World) serialized weights tr :
  cloud_weights w = Data serialized →
  pickle_loads w (take 1024 serialized) = Some weights →
  HPV_ReceiveWeights w tr = (tr, Returned (Some weights)).
Proof.
  intros Hw Hl. unfold HPV_ReceiveWeights. rewrite Hw. run_io.
  by rewrite Hl.
Qed.

(** [''.join([None])] raises a [TypeError], which the sender catches. *)
Lemma HPV_SendShortestPath_None_node (w : World) tr :
  HPV_SendShortestPath w (Some [None]) tr = (tr, Returned tt).
Proof. done. Qed.

(** The log is left as it was. *)
Ltac same_log := eexists [], _; by rewrite app_nil_r.

(** Whatever the authority does, the log of the connect step starts with
    the attempt to connect. *)
Lemma HPV_ConnectToCloudServer_log (w : World) :
  ∃ tr' r, HPV_ConnectToCloudServer w [] = (Connect Cloud :: tr', r).
Proof.
  unfold HPV_ConnectToCloudServer. run_io. rewrite probe_octets_encode.
  destruct (cloud_accepts w); cbn; [|by eexists _, _].
  destruct (cloud_send_ok w); cbn; [|by eexists _, _].
  destruct (cloud_echo w) as [bs|]; cbn; [|by eexists _, _].
  destruct (utf8_decode (take 1024 bs)); cbn; [|by eexists _, _].
  case_decide; by eexists _, _.
Qed.

Lemma HPV_ReceiveWeights_log (w : World) tr :
  ∃ r, HPV_ReceiveWeights w tr = (tr, r).
Proof.
  unfold HPV_ReceiveWeights. run_io.
  destruct (cloud_weights w) as [bs|]; cbn; [|by eexists].
  destruct (pickle_loads w (take 1024 bs)); cbn; by eexists.
Qed.

Lemma HPV_SendShortestPath_log (w : World) shortestPath tr :
  ∃ tr' r, HPV_SendShortestPath w shortestPath tr = (tr ++ tr', r).
Proof.
  unfold HPV_SendShortestPath. run_io.
  destruct shortestPath as [path|]; cbn; [|same_log].
  destruct (join path) as [path_string|e|]; cbn;
    [|destruct e; same_log|same_log].
  destruct (utf8_encode path_string); cbn; [|same_log].
  destruct (lpv_send_ok w); cbn; [by eexists _, _|same_log].
Qed.

(** Once the request has been read, the round contacts the authority. *)
Lemma main_iteration_contacts (w : World) (fuel : nat) q :
  HPV_ReceiveLpvRequest w [] = ([], Returned q) →
  Connect Cloud ∈ (main_iteration w fuel []).1.
Proof.
  intros Hparse. unfold main_iteration. run_io. rewrite Hparse.
  destruct q as [source destination].
  destruct (HPV_ConnectToCloudServer_log w) as (tr1 & r1 & ->).
  destruct r1 as [[c|]| |]; cbn; [|by left..].
  destruct (HPV_ReceiveWeights_log w (Connect Cloud :: tr1)) as (r2 & ->).
  destruct r2 as [[weights|]| |]; cbn; [|by left..].
  destruct (HPV_GetShortestPath _ _ _ _ _) as [path| |]; cbn; [|by left..].
  destruct (HPV_SendShortestPath_log w (Some path) (Connect Cloud :: tr1))
    as (tr3 & r3 & ->).
  destruct r3 as [[]| |]; cbn; by left.
Qed.

(** C4 (as amended). A request of fewer than 2 octets that decodes as text
    is reported unreadable, as the pair [(None, None)].  The round goes on
    all the same: it contacts the authority whatever comes of it, and when
    that fetch succeeds it sends nothing to the client, closes both sockets
    and raises nothing. *)
Theorem short_request_round (w : World) (fuel : nat) (bs : bytes) (data : str)
    (weights : list (@Edge str)) :
  lpv_request w = Data bs → (length bs < 2)%nat → utf8_decode bs = Some data →
  HPV_ReceiveLpvRequest w [] = ([], Returned (None, None)) ∧
  Connect Cloud ∈ (main_iteration w (S fuel) []).1 ∧
  (fetch_ok w weights →
   main_iteration w (S fuel) []
   = ([Connect Cloud; Send Cloud probe_octets; Close Cloud; Close Lpv],
      Returned tt)).
Proof.
  intros Hreq Hlen Hdec.
  pose proof (HPV_ReceiveLpvRequest_short w bs data) as Hparse.
  split; [by apply Hparse|].
  split; [by eapply main_iteration_contacts, Hparse|].
  intros (Ha & Hs & He & serialized & Hw & Hl).
  unfold main_iteration. run_io.
  rewrite (Hparse [] Hreq Hlen Hdec).
  rewrite (HPV_ConnectToCloudServer_ok w [] Ha Hs He).
  rewrite (HPV_ReceiveWeights_ok w serialized weights _ Hw Hl).
  rewrite HPV_GetShortestPath_first.
  by rewrite HPV_SendShortestPath_None_node.
Qed.

(** A one-octet request: the authority is contacted all the same. *)
Lemma short_request_contacts_authority : ¬ aborts_session short_request_world 1.
Proof. intros (_ & Hno & _). apply Hno. vm_compute. by left. Qed.

(** A one-octet request that is not text: decoding raises inside
    [HPV_ReceiveLpvRequest], whose handler catches socket errors only. *)
Lemma undecodable_request_raises :
  main_iteration
    (world (Data [255]) true (Data probe_octets) (Some CloudServer_GlobalGraph))
    1 []
  = ([], Raised UnicodeDecodeError).
Proof. by vm_compute. Qed.

(** C2. The reply when no path is found.  On the reference topology the
    query from A to Z finds no path; the round then sends an empty payload
    to the client, not the octet 255.  Had the sender been given [None], it
    would have raised [ValueError] at [bytes([-1])] before sending. *)
Theorem no_path_reply :
  HPV_GetShortestPath pynode_ltb 7 (Some (lit "A")) (Some (lit "Z"))
    (as_map CloudServer_GlobalGraph) = Returned [] ∧
  main_iteration
    (world (Data (blit "AZ")) true (Data probe_octets) (Some CloudServer_GlobalGraph))
    7 []
  = ([Connect Cloud; Send Cloud probe_octets; Send Lpv []; Close Cloud; Close Lpv],
     Returned tt) ∧
  (∀ w tr, HPV_SendShortestPath w None tr = (tr, Raised ValueError)).
Proof. split_and!; [by vm_compute..|done]. Qed.

(** C3. A failed fetch from the authority ends the relay.  With a
    well-formed request from the client, a refused connection and a
    handshake mismatch both reach [CloudServerSocket.close()] with [None],
    and a graph that does not unpickle raises from inside the handler of
    [HPV_ReceiveWeights]; each time an [AttributeError] leaves the loop. *)
Theorem authority_failure_is_fatal :
  main_iteration
    (world (Data (blit "BA")) false RecvError None) 6 []
  = ([Connect Cloud], Raised AttributeError) ∧
  main_iteration
    (world (Data (blit "BA")) true (Data (blit "Test")) (Some CloudServer_GlobalGraph)) 6 []
  = ([Connect Cloud; Send Cloud probe_octets], Raised AttributeError) ∧
  main_iteration
    (world (Data (blit "BA")) true (Data probe_octets) None) 6 []
  = ([Connect Cloud; Send Cloud probe_octets], Raised AttributeError).
Proof. split_and!; by vm_compute. Qed.

(** * The theorems at concrete inputs *)

Lemma reference_isolated_Z : isolated CloudServer_GlobalGraph (lit "Z").
Proof.
  intros y w [Hin|Hin]; unfold CloudServer_GlobalGraph in Hin;
    repeat (apply elem_of_cons in Hin as [[=]|Hin]);
    by apply elem_of_nil in Hin.
Qed.

(** The reference topology, from B to A. *)
Lemma HPV_GetShortestPath_shortest_witness :
  nonneg CloudServer_GlobalGraph ∧
  reachable CloudServer_GlobalGraph (lit "B") (lit "A") ∧
  ∃ fuel0 p ws,
    (∀ fuel, (fuel0 ≤ fuel)%nat →
       HPV_GetShortestPath str_ltb fuel (lit "B") (lit "A") CloudServer_GlobalGraph
       = Returned p) ∧
    head p = Some (lit "B") ∧ last p = Some (lit "A") ∧
    chain CloudServer_GlobalGraph p ws ∧
    (∀ p' ws', route CloudServer_GlobalGraph (lit "B") (lit "A") p' ws' →
               total ws ≤ total ws').
Proof.
  assert (reachable CloudServer_GlobalGraph (lit "B") (lit "A")) as Hreach.
  { exists [lit "B"; lit "A"], [6]. split; [done|]. split; [done|].
    split; [|done]. right. in_list. }
  split; [exact reference_nonneg|]. split; [exact Hreach|].
  exact (HPV_GetShortestPath_shortest str_ltb CloudServer_GlobalGraph
           (lit "B") (lit "A") reference_nonneg Hreach).
Defined.

(** The reference topology, from B to a node it does not mention. *)
Lemma HPV_GetShortestPath_no_path_witness :
  nonneg CloudServer_GlobalGraph ∧
  lit "B" ≠ lit "Z" ∧ isolated CloudServer_GlobalGraph (lit "Z") ∧
  ∃ fuel0, ∀ fuel, (fuel0 ≤ fuel)%nat →
    HPV_GetShortestPath str_ltb fuel (lit "B") (lit "Z") CloudServer_GlobalGraph
    = Returned [].
Proof.
  assert (lit "B" ≠ lit "Z") as Hne by done.
  split; [exact reference_nonneg|]. split; [exact Hne|].
  split; [exact reference_isolated_Z|].
  exact (HPV_GetShortestPath_no_path str_ltb CloudServer_GlobalGraph
           (lit "B") (lit "Z") reference_nonneg
           (or_intror (conj Hne (or_intror reference_isolated_Z)))).
Defined.

(** The reference topology, from B to B. *)
Lemma HPV_GetShortestPath_self_present_witness :
  lit "B" ∈ (build_graph CloudServer_GlobalGraph).2 ∧
  HPV_GetShortestPath str_ltb 1 (lit "B") (lit "B") CloudServer_GlobalGraph
  = Returned [lit "B"] ∧
  route CloudServer_GlobalGraph (lit "B") (lit "B") [lit "B"] [] ∧ total [] = 0.
Proof.
  assert (lit "B" ∈ (build_graph CloudServer_GlobalGraph).2) as Hin.
  { rewrite build_graph_nodes. exists (lit "C"), 5. left. in_list. }
  split; [exact Hin|].
  exact (HPV_GetShortestPath_self_present str_ltb CloudServer_GlobalGraph
           (lit "B") 0 Hin).
Defined.

(** The relay's own probe. *)
Lemma handshake_echo_witness :
  (length probe_octets ≤ 1024)%nat ∧
  utf8_decode probe_octets = Some test_message ∧
  echoes probe_octets ∧
  (∀ w, cloud_accepts w = true → cloud_send_ok w = true →
        cloud_echo w = Data probe_octets →
        HPV_ConnectToCloudServer w []
        = ([Connect Cloud; Send Cloud probe_octets], Returned (Some Cloud))).
Proof.
  assert (length probe_octets ≤ 1024)%nat as Hlen by (simpl; lia).
  split; [exact Hlen|]. split; [reflexivity|].
  exact (handshake_echo probe_octets test_message Hlen eq_refl).
Defined.

(** A request of the single octet ["A"], with the reference topology at the
    authority. *)
Lemma short_request_round_witness :
  lpv_request short_request_world = Data (blit "A") ∧
  (length (blit "A") < 2)%nat ∧
  utf8_decode (blit "A") = Some (lit "A") ∧
  fetch_ok short_request_world CloudServer_GlobalGraph ∧
  HPV_ReceiveLpvRequest short_request_world [] = ([], Returned (None, None)) ∧
  Connect Cloud ∈ (main_iteration short_request_world 1 []).1 ∧
  main_iteration short_request_world 1 []
  = ([Connect Cloud; Send Cloud probe_octets; Close Cloud; Close Lpv],
     Returned tt).
Proof.
  assert (length (blit "A") < 2)%nat as Hlen by (simpl; lia).
  assert (fetch_ok short_request_world CloudServer_GlobalGraph) as Hfetch.
  { split; [reflexivity|]. split; [reflexivity|]. split; [reflexivity|].
    exists []. split; reflexivity. }
  split; [reflexivity|]. split; [exact Hlen|]. split; [reflexivity|].
  split; [exact Hfetch|].
  destruct (short_request_round short_request_world 0 (blit "A") (lit "A")
              CloudServer_GlobalGraph eq_refl Hlen eq_refl)
    as (Hparse & Hcontact & Hround).
  split; [exact Hparse|]. split; [exact Hcontact|]. exact (Hround Hfetch).
Defined.

(** * The engine on arbitrary weights *)

Section EngineAnyWeights.

Context `{Countable Node}.
Abbreviation Edge := (@Edge Node).
Abbreviation Entry := (@Entry Node).

Variables (map : list Edge) (s t : Node).

Lemma winv_weaken (P Q : Node → Z → Node → Z → Prop) distances (pq : list Entry) :
  (∀ x dx y w, P x dx y w → Q x dx y w) →
  winv map s P distances pq → winv map s Q distances pq.
Proof.
  intros HPQ [? ? ? Hopen]. split; try done.
  intros x dx Hx. destruct (Hopen x dx Hx) as [?|Hcl]; [by left|right].
  intros y w He. destruct (Hcl y w He) as [?|?]; [left; by apply HPQ|by right].
Qed.

Lemma winv_initial (nodes : gset Node) :
  (∀ x, x ∈ nodes ↔ ∃ y w, edge map x y w) →
  winv map s no_pending (<[s := Fin 0]> (gset_to_gmap Inf nodes))
    (heappush [] (0, s, [s])).
Proof.
  intros Hnodes. split.
  - exists 0. apply lookup_insert_eq.
  - intros u v w He. rewrite lookup_insert_is_Some'. right.
    exists Inf. apply lookup_gset_to_gmap_Some. split; [|done].
    apply Hnodes. exists u, w. destruct He; [by right|by left].
  - intros d n p [= -> -> ->]%list_elem_of_singleton. split; [constructor|].
    exists 0. by rewrite lookup_insert_eq.
  - intros x dx. rewrite lookup_insert_Some, lookup_gset_to_gmap_Some.
    intros [[<- [= <-]]|[_ [_ [=]]]]. left. exists [s].
    by apply list_elem_of_singleton.
Qed.

Lemma winv_improve n d p y w nbrs distances (pq : list Entry) dn :
  walk map s n p d → edge map n y w →
  distances !! y = Some dn → lt_dist (d + w) dn = true →
  winv map s (pending n d ((y, w) :: nbrs)) distances pq →
  winv map s (pending n d nbrs) (<[y := Fin (d + w)]> distances)
    (heappush pq (d + w, y, p ++ [y])).
Proof.
  intros Hw He Hy Hlt [[ds Hsrc] Hdom Hq Hopen]. unfold heappush. split.
  - destruct (decide (y = s)) as [->|Hne].
    + exists (d + w). by rewrite lookup_insert_eq.
    + exists ds. by rewrite lookup_insert_ne.
  - intros u v w' He'. rewrite lookup_insert_is_Some'. right. by eapply Hdom.
  - intros d' n' p' [Hin|[= -> -> ->]%list_elem_of_singleton]%elem_of_app.
    + destruct (Hq _ _ _ Hin) as [Hw' (dn' & Hn' & Hle)]. split; [done|].
      destruct (decide (y = n')) as [->|Hne].
      * exists (d + w). rewrite lookup_insert_eq. split; [done|].
        rewrite Hy in Hn'. injection Hn' as ->.
        apply bool_decide_eq_true in Hlt. lia.
      * exists dn'. by rewrite lookup_insert_ne.
    + split; [by eapply walk_step|]. exists (d + w).
      by rewrite lookup_insert_eq.
  - intros x dx. rewrite lookup_insert_Some. intros [[<- [= <-]]|[Hne Hx]].
    + left. exists (p ++ [y]). apply elem_of_app. right. by left.
    + destruct (Hopen x dx Hx) as [[p0 Hin]|Hcl].
      * left. exists p0. apply elem_of_app. by left.
      * right. intros y' w' He'.
        destruct (Hcl y' w' He') as [(-> & -> & Hin)|(dy & Hy' & Hle)].
        -- apply elem_of_cons in Hin as [[= -> ->]|Hin].
           ++ right. exists (d + w). by rewrite lookup_insert_eq.
           ++ by left.
        -- right. destruct (decide (y = y')) as [->|Hne'].
           ++ exists (d + w). rewrite lookup_insert_eq. split; [done|].
              rewrite Hy in Hy'. injection Hy' as ->.
              apply bool_decide_eq_true in Hlt. lia.
           ++ exists dy. by rewrite lookup_insert_ne.
Qed.

Lemma winv_skip n d y w nbrs distances (pq : list Entry) dn :
  distances !! y = Some dn → lt_dist (d + w) dn = false →
  winv map s (pending n d ((y, w) :: nbrs)) distances pq →
  winv map s (pending n d nbrs) distances pq.
Proof.
  intros Hy Hlt [? ? ? Hopen]. split; try done.
  intros x dx Hx. destruct (Hopen x dx Hx) as [?|Hcl]; [by left|right].
  intros y' w' He'. destruct (Hcl y' w' He') as [(-> & -> & Hin)|?]; [|by right].
  apply elem_of_cons in Hin as [[= -> ->]|Hin]; [right|by left].
  destruct dn as [|dy]; [done|]. exists dy. split; [done|].
  apply bool_decide_eq_false in Hlt. lia.
Qed.

(** The [for] loop raises nothing and restores the invariant. *)
Lemma relax_weak n d p (nbrs : list (Node * Z)) : ∀ distances (pq : list Entry),
  walk map s n p d →
  (∀ y w, (y, w) ∈ nbrs → edge map n y w) →
  winv map s (pending n d nbrs) distances pq →
  ∃ distances' pq',
    relax d p nbrs distances pq = Returned (distances', pq') ∧
    winv map s no_pending distances' pq'.
Proof.
  induction nbrs as [|[y w] nbrs IH]; intros distances pq Hw Hnb Hinv.
  - exists distances, pq. split; [done|].
    eapply winv_weaken; [|exact Hinv].
    by intros x dx y w (_ & _ & ?%elem_of_nil).
  - simpl. assert (edge map n y w) as He by (apply Hnb; left).
    destruct (winv_dom _ _ _ _ _ Hinv n y w He) as [dn Hy]. rewrite Hy.
    assert (∀ y' w', (y', w') ∈ nbrs → edge map n y' w') as Hnb'
      by (intros; apply Hnb; by right).
    destruct (lt_dist (d + w) dn) eqn:Hlt.
    + apply IH; [done..|]. by eapply winv_improve.
    + apply IH; [done..|]. by eapply winv_skip.
Qed.

Variable node_ltb : Node → Node → bool.

Lemma winv_pop_stale distances (pq pq' : list Entry) d n p dn :
  heappop node_ltb pq = Some ((d, n, p), pq') →
  distances !! n = Some dn → gt_dist d dn = true →
  winv map s no_pending distances pq → winv map s no_pending distances pq'.
Proof.
  intros (Hmem & _ & _)%heappop_Some Hn Hgt [? ? Hq Hopen].
  split; try done.
  - intros d' n' p' Hin. apply Hq, Hmem. by right.
  - intros x dx Hx. destruct (Hopen x dx Hx) as [[p0 Hin]|?]; [left|by right].
    apply Hmem in Hin as [[= -> -> ->]|Hin]; [|by exists p0].
    rewrite Hn in Hx. injection Hx as ->.
    apply bool_decide_eq_true in Hgt. lia.
Qed.

Lemma winv_pop_fresh distances (pq pq' : list Entry) d n p dn :
  heappop node_ltb pq = Some ((d, n, p), pq') →
  distances !! n = Some dn → gt_dist d dn = false →
  winv map s no_pending distances pq →
  winv map s (pending n d (graph_get (build_graph map).1 n)) distances pq'.
Proof.
  intros (Hmem & _ & _)%heappop_Some Hn Hgt Hinv.
  assert (dn = Fin d) as ->.
  { destruct (winv_queue _ _ _ _ _ Hinv d n p) as [_ (d' & Hn' & Hle)].
    { apply Hmem. by left. }
    rewrite Hn in Hn'. injection Hn' as ->.
    apply bool_decide_eq_false in Hgt. f_equal. lia. }
  destruct Hinv as [? ? Hq Hopen]. split; try done.
  - intros d' n' p' Hin. apply Hq, Hmem. by right.
  - intros x dx Hx. destruct (Hopen x dx Hx) as [[p0 Hin]|Hcl].
    + apply Hmem in Hin as [[= -> -> ->]|Hin]; [right|left; by exists p0].
      intros y w He. left. split_and!; [done..|]. by apply build_graph_adj.
    + right. intros y w He. by destruct (Hcl y w He) as [[]|?]; right.
Qed.

(** Whatever the weights: the loop raises nothing; a path it returns is a
    walk from the source to the destination; and it returns the empty list
    only once the queue is empty. *)
Lemma dijkstra_loop_weak (fuel : nat) : ∀ distances (pq : list Entry),
  winv map s no_pending distances pq →
  match dijkstra_loop node_ltb fuel (build_graph map).1 t distances pq with
  | Returned r =>
      (∃ d, walk map s t r d) ∨
      (r = [] ∧ ∃ distances', winv map s no_pending distances' [])
  | Raised _ => False
  | OutOfFuel => True
  end.
Proof.
  induction fuel as [|fuel IH]; intros distances pq Hinv; [done|]. simpl.
  destruct (heappop node_ltb pq) as [[[[d n] p] pq']|] eqn:Hpop.
  - destruct (heappop_Some _ _ _ _ Hpop) as (Hmem & _ & _).
    assert ((d, n, p) ∈ pq) as Hin by (apply Hmem; by left).
    destruct (winv_queue _ _ _ _ _ Hinv d n p Hin) as [Hw (dn & Hn & Hle)].
    destruct (decide (n = t)) as [->|Hnt]; [left; by exists d|].
    rewrite Hn. destruct (gt_dist d (Fin dn)) eqn:Hgt.
    + apply IH. by eapply winv_pop_stale.
    + destruct (relax_weak n d p (graph_get (build_graph map).1 n) distances pq' Hw)
        as (distances' & pq'' & -> & Hinv').
      * intros y w Hy. by apply build_graph_adj.
      * by eapply winv_pop_fresh.
      * by apply IH.
  - apply heappop_None in Hpop as ->. right. split; [done|]. by exists distances.
Qed.

Lemma HPV_GetShortestPath_weak (fuel : nat) :
  match HPV_GetShortestPath node_ltb fuel s t map with
  | Returned r =>
      (∃ d, walk map s t r d) ∨
      (r = [] ∧ ∃ distances', winv map s no_pending distances' [])
  | Raised _ => False
  | OutOfFuel => True
  end.
Proof.
  unfold HPV_GetShortestPath.
  pose proof (build_graph_nodes map) as Hnodes.
  pose proof (dijkstra_loop_weak fuel) as Hloop.
  destruct (build_graph map) as [graph nodes]. simpl in *.
  apply Hloop, winv_initial, Hnodes.
Qed.

(** With the queue empty, the recorded distances admit no improvement along
    any edge of a node the source reaches; an edge of negative weight at the
    source contradicts that. *)
Lemma winv_empty_no_negative distances v w :
  winv map s no_pending distances [] → edge map s v w → 0 ≤ w.
Proof.
  intros [[ds Hs] _ _ Hopen] He.
  assert (∀ x dx, distances !! x = Some (Fin dx) → ∀ y w', edge map x y w' →
            ∃ dy, distances !! y = Some (Fin dy) ∧ dy ≤ dx + w') as Hcl.
  { intros x dx Hx y w' He'. destruct (Hopen x dx Hx) as [[p Hin]|Hc].
    - by apply elem_of_nil in Hin.
    - by destruct (Hc y w' He') as [[]|?]. }
  destruct (Hcl s ds Hs v w He) as (dv & Hv & Hle1).
  assert (edge map v s w) as He' by (destruct He; [by right|by left]).
  destruct (Hcl v dv Hv s w He') as (ds' & Hs' & Hle2).
  rewrite Hs in Hs'. injection Hs' as <-. lia.
Qed.

(** X1. The engine never raises: every lookup in [distances] finds its key,
    whatever the map, the query and the number of rounds. *)
Theorem HPV_GetShortestPath_never_raises (fuel : nat) (e : Exn) :
  HPV_GetShortestPath node_ltb fuel s t map ≠ Raised e.
Proof.
  intros Hrun. pose proof (HPV_GetShortestPath_weak fuel) as Hweak.
  by rewrite Hrun in Hweak.
Qed.

(** X2. Whatever the weights, a result that is not empty is a route of the
    map from the source to the destination. *)
Theorem HPV_GetShortestPath_returns_route (fuel : nat) (r : list Node) :
  HPV_GetShortestPath node_ltb fuel s t map = Returned r →
  r = [] ∨ ∃ ws, route map s t r ws.
Proof.
  intros Hrun. pose proof (HPV_GetShortestPath_weak fuel) as Hweak.
  rewrite Hrun in Hweak. destruct Hweak as [[d Hw]|[-> _]]; [right|by left].
  destruct (walk_route _ _ _ _ _ Hw) as (ws & Hr & _). by exists ws.
Qed.

(** X3. An edge of negative weight at the source, with a destination that
    cannot be reached: the loop never ends, however many rounds it is
    given. *)
Theorem HPV_GetShortestPath_negative_diverges (v : Node) (w : Z) (fuel : nat) :
  edge map s v w → w < 0 → ¬ reachable map s t →
  HPV_GetShortestPath node_ltb fuel s t map = OutOfFuel.
Proof.
  intros He Hneg Hun. pose proof (HPV_GetShortestPath_weak fuel) as Hweak.
  destruct (HPV_GetShortestPath node_ltb fuel s t map) as [r| |]; [|done..].
  destruct Hweak as [[d Hw]|[_ [distances' Hinv]]].
  - destruct Hun. destruct (walk_route _ _ _ _ _ Hw) as (ws & Hr & _).
    by exists r, ws.
  - pose proof (winv_empty_no_negative _ _ _ Hinv He). lia.
Qed.

End EngineAnyWeights.

(** * The adjacency lists and the shape of a result *)

Section EngineShape.

Context `{Countable Node}.
Abbreviation Edge := (@Edge Node).
Abbreviation Entry := (@Entry Node).

Lemma ensure_key_keys k (g : gmap Node (list (Node * Z))) x :
  is_Some (ensure_key k g !! x) ↔ is_Some (g !! x) ∨ x = k.
Proof.
  unfold ensure_key. destruct (g !! k) eqn:Hk.
  - split; [by left|]. intros [?| ->]; [done|]. by rewrite Hk.
  - rewrite lookup_insert_is_Some. destruct (decide (k = x)); naive_solver.
Qed.

Lemma append_to_keys k a (g : gmap Node (list (Node * Z))) x :
  is_Some (append_to k a g !! x) ↔ is_Some (g !! x).
Proof.
  unfold append_to. rewrite lookup_alter.
  destruct (decide (k = x)) as [->|Hk]; [|done]. apply fmap_is_Some.
Qed.

Lemma add_edge_keys (g : gmap Node (list (Node * Z))) (nodes : gset Node) u v w x :
  is_Some ((add_edge (g, nodes) (u, v, w)).1 !! x) ↔
  is_Some (g !! x) ∨ x = u ∨ x = v.
Proof. simpl. rewrite !append_to_keys, !ensure_key_keys. tauto. Qed.

Lemma build_graph_keys (map : list Edge) x :
  is_Some ((build_graph map).1 !! x) ↔ x ∈ (build_graph map).2.
Proof.
  induction map as [|[[u v] w] map IH] using rev_ind.
  - unfold build_graph. simpl. rewrite lookup_empty.
    split; [by intros [? ?]|set_solver].
  - rewrite build_graph_snoc. destruct (build_graph map) as [g nodes].
    rewrite add_edge_keys, add_edge_nodes. simpl in IH. by rewrite IH.
Qed.

(** X4. The adjacency structure the engine builds from a map.  Its keys are
    exactly the collected node set, which holds exactly the endpoints of the
    entries of the map.  The list of [u] holds [(v, w)] exactly when the map
    has the entry [(u, v, w)] or the entry [(v, u, w)]: every edge of the
    map, and nothing else, is listed from both of its ends with its weight.
    Every listed neighbour is itself a key. *)
Theorem build_graph_bidirectional (map : list Edge) :
  dom (build_graph map).1 = (build_graph map).2 ∧
  (∀ x, x ∈ (build_graph map).2 ↔
        ∃ y w, (x, y, w) ∈ map ∨ (y, x, w) ∈ map) ∧
  ∀ u v w,
    ((v, w) ∈ graph_get (build_graph map).1 u ↔
     (u, v, w) ∈ map ∨ (v, u, w) ∈ map) ∧
    ((v, w) ∈ graph_get (build_graph map).1 u ↔
     (u, w) ∈ graph_get (build_graph map).1 v) ∧
    ((v, w) ∈ graph_get (build_graph map).1 u → v ∈ dom (build_graph map).1).
Proof.
  split; [|split].
  - apply set_eq. intros x. by rewrite elem_of_dom, build_graph_keys.
  - intros x. apply build_graph_nodes.
  - intros u v w. rewrite !build_graph_adj. split; [done|]. split.
    + unfold edge. tauto.
    + intros He. rewrite elem_of_dom, build_graph_keys, build_graph_nodes.
      exists u, w. destruct He; [by right|by left].
Qed.

(** Lowering one distance keeps the paths of the queue settled. *)
Lemma settled_below_insert (distances : gmap Node Dist) d0 p0 y dn x :
  settled_below distances d0 p0 →
  distances !! y = Some dn → lt_dist x dn = true →
  settled_below (<[y := Fin x]> distances) d0 p0.
Proof.
  intros [Hnd Hall] Hy Hlt. split; [done|]. intros z Hz.
  destruct (Hall z Hz) as (dz & Hdz & Hle).
  destruct (decide (y = z)) as [->|Hne].
  - exists x. rewrite lookup_insert_eq. split; [done|].
    rewrite Hy in Hdz. injection Hdz as ->.
    apply bool_decide_eq_true in Hlt. lia.
  - exists dz. by rewrite lookup_insert_ne.
Qed.

Lemma relax_simple d p (nbrs : list (Node * Z)) :
  ∀ distances (pq : list Entry) distances' pq',
  settled_below distances d p →
  (∀ y w, (y, w) ∈ nbrs → 0 ≤ w) →
  simple_queue distances pq →
  relax d p nbrs distances pq = Returned (distances', pq') →
  simple_queue distances' pq'.
Proof.
  induction nbrs as [|[y w] nbrs IH];
    intros distances pq distances' pq' Hp Hnb Hq Hrun; simpl in Hrun.
  { by injection Hrun as <- <-. }
  assert (0 ≤ w) as Hw0 by (apply (Hnb y); by left).
  assert (∀ y' w', (y', w') ∈ nbrs → 0 ≤ w') as Hnb'
    by (intros y' w' ?; apply (Hnb y'); by right).
  destruct (distances !! y) as [dn|] eqn:Hy; [|done].
  destruct (lt_dist (d + w) dn) eqn:Hlt; [|by eapply IH].
  eapply IH; [| |  |exact Hrun]; [by eapply settled_below_insert|done|].
  intros d' n' p' [Hin|[= -> -> ->]%list_elem_of_singleton]%elem_of_app.
  { eapply settled_below_insert; [by eapply Hq|done..]. }
  destruct Hp as [Hnd Hall].
  assert (y ∉ p) as Hyp.
  { intros Hin. destruct (Hall y Hin) as (dy & Hdy & Hle).
    rewrite Hy in Hdy. injection Hdy as ->.
    apply bool_decide_eq_true in Hlt. lia. }
  split.
  - apply NoDup_app. split; [done|]. split; [|apply NoDup_singleton].
    intros x Hx ->%list_elem_of_singleton. done.
  - intros x [Hx| ->%list_elem_of_singleton]%elem_of_app.
    + destruct (Hall x Hx) as (dx & Hdx & Hle). exists dx.
      rewrite lookup_insert_ne by (by intros ->). split; [done|lia].
    + exists (d + w). by rewrite lookup_insert_eq.
Qed.

Variable node_ltb : Node → Node → bool.

Lemma dijkstra_loop_simple (fuel : nat) :
  ∀ graph t distances (pq : list Entry) r,
  (∀ n y w, (y, w) ∈ graph_get graph n → 0 ≤ w) →
  simple_queue distances pq →
  dijkstra_loop node_ltb fuel graph t distances pq = Returned r →
  NoDup r.
Proof.
  induction fuel as [|fuel IH]; intros graph t distances pq r Hg Hq Hrun;
    [done|]. simpl in Hrun.
  destruct (heappop node_ltb pq) as [[[[d n] p] pq']|] eqn:Hpop;
    [|injection Hrun as <-; apply NoDup_nil_2].
  destruct (heappop_Some _ _ _ _ Hpop) as (Hmem & _ & _).
  assert (settled_below distances d p) as Hp by (eapply Hq, Hmem; by left).
  assert (simple_queue distances pq') as Hq'
    by (intros d' n' p' Hin; eapply Hq, Hmem; by right).
  destruct (decide (n = t)); [injection Hrun as <-; apply Hp|].
  destruct (distances !! n) as [dn|]; [|done].
  destruct (gt_dist d dn); [by eapply IH|].
  destruct (relax d p (graph_get graph n) distances pq')
    as [[distances' pq'']| |] eqn:Hrel; [|done..].
  eapply IH; [done| |exact Hrun].
  eapply relax_simple; [exact Hp| |exact Hq'|exact Hrel].
  intros y w. apply Hg.
Qed.

(** X5. On a map with non-negative weights, a result of the engine visits no
    node twice. *)
Theorem HPV_GetShortestPath_simple (map : list Edge) (s t : Node)
    (fuel : nat) (r : list Node) :
  nonneg map →
  HPV_GetShortestPath node_ltb fuel s t map = Returned r →
  NoDup r.
Proof.
  intros Hnn. unfold HPV_GetShortestPath.
  pose proof (build_graph_adj map) as Hadj.
  destruct (build_graph map) as [graph nodes]. simpl in *.
  apply dijkstra_loop_simple.
  - intros n y w Hin. apply Hadj in Hin. by eapply edge_nonneg.
  - intros d n p [= -> -> ->]%list_elem_of_singleton. split.
    + apply NoDup_singleton.
    + intros x ->%list_elem_of_singleton. exists 0.
      by rewrite lookup_insert_eq.
Qed.

End EngineShape.

(** * More on the text codec *)

Lemma utf8_encode_app (a b : str) :
  utf8_encode (a ++ b) =
  match utf8_encode a, utf8_encode b with
  | Some x, Some y => Some (x ++ y)
  | _, _ => None
  end.
Proof.
  induction a as [|c a IH]; simpl; [by destruct (utf8_encode b)|].
  rewrite IH. destruct (utf8_encode_char c), (utf8_encode a), (utf8_encode b);
    try done. by rewrite app_assoc.
Qed.

(** The octets of one code point lie between 0 and 244. *)
Lemma utf8_encode_char_octets (c : Z) (bs : bytes) :
  utf8_encode_char c = Some bs → Forall (λ b, 0 ≤ b ≤ 244) bs.
Proof.
  unfold utf8_encode_char, between. intros Henc.
  repeat case_bool_decide; simplify_eq; repeat constructor; divlia.
Qed.

Lemma utf8_encode_octets (s : str) : ∀ bs,
  utf8_encode s = Some bs → Forall (λ b, 0 ≤ b ≤ 244) bs.
Proof.
  induction s as [|c s IH]; intros bs Henc; simpl in Henc.
  { by injection Henc as <-. }
  destruct (utf8_encode_char c) as [b|] eqn:Hc; [|done].
  destruct (utf8_encode s) as [bs'|]; [|done]. injection Henc as <-.
  apply Forall_app. split; [by eapply utf8_encode_char_octets|by apply IH].
Qed.

(** Decoding the octets of one code point, with more octets behind. *)
Lemma utf8_decode_encode_char (c : Z) (b rest : bytes) :
  utf8_encode_char c = Some b →
  utf8_decode (b ++ rest) = cons c <$> utf8_decode rest.
Proof.
  unfold utf8_encode_char. intros Henc.
  destruct (between 0 c 127) eqn:H1.
  { injection Henc as <-. simpl. by rewrite H1. }
  destruct (between 128 c 2047) eqn:H2.
  { injection Henc as <-. unbool. simpl. unfold cont, between.
    rewrite (bool_decide_eq_false_2 (0 ≤ 192 + c / 64 ≤ 127)) by divlia.
    rewrite (bool_decide_eq_true_2 (194 ≤ 192 + c / 64 ≤ 223)) by divlia.
    rewrite (bool_decide_eq_true_2 (128 ≤ 128 + c mod 64 ≤ 191)) by divlia.
    do 2 f_equal. divlia. }
  destruct (between 55296 c 57343) eqn:H3; [done|].
  destruct (between 2048 c 65535) eqn:H4.
  { injection Henc as <-. unbool. simpl. unfold cont, between.
    rewrite (bool_decide_eq_false_2 (0 ≤ 224 + c / 4096 ≤ 127)) by divlia.
    rewrite (bool_decide_eq_false_2 (194 ≤ 224 + c / 4096 ≤ 223)) by divlia.
    rewrite (bool_decide_eq_true_2 (224 ≤ 224 + c / 4096 ≤ 239)) by divlia.
    rewrite (bool_decide_eq_true_2 (128 ≤ 128 + c mod 64 ≤ 191)) by divlia.
    rewrite bool_decide_eq_true_2; [simpl; do 2 f_equal; divlia|].
    repeat case_bool_decide; divlia. }
  destruct (between 65536 c 1114111) eqn:H5; [|done].
  injection Henc as <-. unbool. simpl. unfold cont, between.
  rewrite (bool_decide_eq_false_2 (0 ≤ 240 + c / 262144 ≤ 127)) by divlia.
  rewrite (bool_decide_eq_false_2 (194 ≤ 240 + c / 262144 ≤ 223)) by divlia.
  rewrite (bool_decide_eq_false_2 (224 ≤ 240 + c / 262144 ≤ 239)) by divlia.
  rewrite (bool_decide_eq_true_2 (240 ≤ 240 + c / 262144 ≤ 244)) by divlia.
  rewrite (bool_decide_eq_true_2 (128 ≤ 128 + c mod 64 ≤ 191)) by divlia.
  rewrite (bool_decide_eq_true_2 (128 ≤ 128 + (c / 64) mod 64 ≤ 191)) by divlia.
  rewrite bool_decide_eq_true_2; [simpl; do 2 f_equal; divlia|].
  repeat case_bool_decide; divlia.
Qed.

(** Decoding what was encoded gives the text back. *)
Lemma utf8_decode_encode (s : str) : ∀ bs,
  utf8_encode s = Some bs → utf8_decode bs = Some s.
Proof.
  induction s as [|c s IH]; intros bs Henc; simpl in Henc.
  { by injection Henc as <-. }
  destruct (utf8_encode_char c) as [b|] eqn:Hc; [|done].
  destruct (utf8_encode s) as [bs'|] eqn:Hs; [|done]. injection Henc as <-.
  rewrite (utf8_decode_encode_char c b bs' Hc). by rewrite (IH bs').
Qed.

(** ASCII text is its own encoding. *)
Lemma utf8_encode_ascii (cs : str) : Forall ascii cs → utf8_encode cs = Some cs.
Proof.
  induction 1 as [|c cs Hc _ IH]; [done|]. simpl. rewrite IH.
  unfold utf8_encode_char, between. by rewrite bool_decide_eq_true_2.
Qed.

(** * More on the relay's operations *)

(** Computes, leaving the constants of the protocol folded. *)
Ltac io_cbn :=
  cbn -[test_message probe_octets utf8_decode utf8_encode take HPV_GetShortestPath].

(** What the first two octets of a request decode to. *)
Lemma decode_request (bs : bytes) :
  match utf8_decode (take 2 bs) with
  | Some data =>
      (∃ a b rest, bs = a :: b :: rest ∧ ascii a ∧ ascii b ∧ data = [a; b]) ∨
      (length data ≠ 2%nat ∧
       ¬ ∃ a b rest, bs = a :: b :: rest ∧ ascii a ∧ ascii b)
  | None => ¬ ∃ a b rest, bs = a :: b :: rest ∧ ascii a ∧ ascii b
  end.
Proof.
  unfold ascii. destruct bs as [|a [|b rest]]; simpl.
  - right. split; [done|]. by intros (? & ? & ? & ? & _).
  - destruct (between 0 a 127); simpl.
    + right. split; [done|]. by intros (? & ? & ? & ? & _).
    + repeat (destruct (between _ a _)); by intros (? & ? & ? & ? & _).
  - destruct (between 0 a 127) eqn:Ha; simpl.
    + destruct (between 0 b 127) eqn:Hb; simpl.
      * left. unbool. by exists a, b, rest.
      * assert (¬ ∃ a0 b0 rest0, a :: b :: rest = a0 :: b0 :: rest0 ∧
                                  0 ≤ a0 ≤ 127 ∧ 0 ≤ b0 ≤ 127) as Hno.
        { intros (? & ? & ? & [= <- <- <-] & _ & ?). unbool. lia. }
        repeat (destruct (between _ b _)); simpl; done.
    + assert (¬ ∃ a0 b0 rest0, a :: b :: rest = a0 :: b0 :: rest0 ∧
                                0 ≤ a0 ≤ 127 ∧ 0 ≤ b0 ≤ 127) as Hno.
      { intros (? & ? & ? & [= <- <- <-] & ? & _). unbool. lia. }
      destruct (between 194 a 223);
        [destruct (cont b); simpl; [right; by split|done]|].
      repeat (destruct (between _ a _)); simpl; done.
Qed.

(** X6. Reading the request leaves the log as it is.  It yields a source and
    a destination exactly when the first two octets that arrive are ASCII
    characters, which then are the two nodes, whatever follows them; every
    other request gives [(None, None)] or, when its first two octets are not
    UTF-8 text, a [UnicodeDecodeError]. *)
Theorem HPV_ReceiveLpvRequest_spec (w : World) (tr : list Event) :
  (HPV_ReceiveLpvRequest w tr).1 = tr ∧
  (∀ source destination,
     (HPV_ReceiveLpvRequest w tr).2 = Returned (Some source, Some destination) ↔
     ∃ a b rest, lpv_request w = Data (a :: b :: rest) ∧ ascii a ∧ ascii b ∧
                 source = [a] ∧ destination = [b]) ∧
  ((HPV_ReceiveLpvRequest w tr).2 = Returned (None, None) ∨
   (∃ a b, (HPV_ReceiveLpvRequest w tr).2 = Returned (Some [a], Some [b])) ∨
   (HPV_ReceiveLpvRequest w tr).2 = Raised UnicodeDecodeError).
Proof.
  unfold HPV_ReceiveLpvRequest. run_io. destruct (lpv_request w) as [bs|]; cbn.
  2: { split; [done|]. split; [|by left]. intros ? ?. split; [done|].
       by intros (? & ? & ? & ? & _). }
  pose proof (decode_request bs) as Hd.
  destruct (utf8_decode (take 2 bs)) as [data|]; cbn.
  - destruct Hd as [(a & b & rest & -> & Ha & Hb & ->)|[Hlen Hno]]; cbn.
    + split; [done|]. split; [|right; left; by exists a, b].
      intros source destination. split.
      * intros [= <- <-]. by exists a, b, rest.
      * by intros (? & ? & ? & [= <- <- <-] & _ & _ & -> & ->).
    + rewrite decide_True by done. cbn. split; [done|]. split; [|by left].
      intros ? ?. split; [done|].
      intros (a & b & rest & [= ->] & Ha & Hb & _). destruct Hno.
      by exists a, b, rest.
  - split; [done|]. split; [|by right; right]. intros ? ?. split; [done|].
    intros (a & b & rest & [= ->] & Ha & Hb & _). destruct Hd.
    by exists a, b, rest.
Qed.

(** Only the probe decodes to the test message. *)
Lemma utf8_decode_test_message (bs : bytes) :
  utf8_decode bs = Some test_message ↔ bs = probe_octets.
Proof.
  split; [|by intros ->].
  intros Henc%utf8_encode_decode. rewrite probe_octets_encode in Henc.
  by injection Henc.
Qed.

(** X7. The relay keeps the connection to the authority exactly when the
    connection is accepted, the probe goes out, and the first 1024 octets
    that come back are the probe.  Socket errors never leave the operation:
    the only exception it lets through is the [UnicodeDecodeError] of an
    answer that is not UTF-8 text. *)
Theorem HPV_ConnectToCloudServer_spec (w : World) (tr : list Event) :
  ((HPV_ConnectToCloudServer w tr).2 = Returned (Some Cloud) ↔
   cloud_accepts w = true ∧ cloud_send_ok w = true ∧
   ∃ bs, cloud_echo w = Data bs ∧ take 1024 bs = probe_octets) ∧
  ((HPV_ConnectToCloudServer w tr).2 = Returned (Some Cloud) ∨
   (HPV_ConnectToCloudServer w tr).2 = Returned None ∨
   ((HPV_ConnectToCloudServer w tr).2 = Raised UnicodeDecodeError ∧
    ∃ bs, cloud_echo w = Data bs ∧ utf8_decode (take 1024 bs) = None)).
Proof.
  unfold HPV_ConnectToCloudServer. run_io. rewrite probe_octets_encode.
  destruct (cloud_accepts w); io_cbn;
    [|split; [split; [done|by intros [? _]]|by right; left]].
  destruct (cloud_send_ok w); io_cbn;
    [|split; [split; [done|by intros (_ & ? & _)]|by right; left]].
  destruct (cloud_echo w) as [bs|]; io_cbn;
    [|split; [split; [done|by intros (_ & _ & ? & ? & _)]|by right; left]].
  destruct (utf8_decode (take 1024 bs)) as [response|] eqn:Hdec; io_cbn.
  - destruct (decide (response = test_message)) as [Heq|Hne]; io_cbn.
    + subst response. apply utf8_decode_test_message in Hdec.
      split; [|by left]. split; [|done]. intros _. split_and!; [done..|].
      by exists bs.
    + split; [|by right; left]. split; [done|].
      intros (_ & _ & bs' & [= <-] & Hbs). destruct Hne.
      apply utf8_decode_test_message in Hbs. congruence.
  - split; [|right; right; split; [done|by exists bs]]. split; [done|].
    intros (_ & _ & bs' & [= <-] & Hbs).
    apply utf8_decode_test_message in Hbs. congruence.
Qed.

Lemma join_strs (nodes : list str) : join (Some <$> nodes) = Returned (mjoin nodes).
Proof.
  induction nodes as [|n nodes IH]; [done|].
  change (join (Some <$> n :: nodes))
    with (match join (Some <$> nodes) with
          | Returned r => Returned (n ++ r)
          | o => o
          end).
  by rewrite IH.
Qed.

Lemma utf8_encode_mjoin (nodes : list str) (bss : list bytes) :
  Forall2 (λ n bs, utf8_encode n = Some bs) nodes bss →
  utf8_encode (mjoin nodes) = Some (mjoin bss).
Proof.
  induction 1 as [|n bs nodes bss Hn _ IH]; [done|]. simpl.
  by rewrite utf8_encode_app, Hn, IH.
Qed.

Lemma HPV_SendShortestPath_text (w : World) (path : list PyNode)
    (path_string : str) (reply : bytes) (tr : list Event) :
  join path = Returned path_string → utf8_encode path_string = Some reply →
  HPV_SendShortestPath w (Some path) tr
  = (if lpv_send_ok w then tr ++ [Send Lpv reply] else tr, Returned tt).
Proof.
  intros Hjoin Henc. unfold HPV_SendShortestPath. run_io.
  rewrite Hjoin. io_cbn. rewrite Henc. by destruct (lpv_send_ok w).
Qed.

(** X8. The reply for a path that was found: one transmission, made of the
    encodings of the nodes in path order with nothing between them.  When
    the transmission fails the error is swallowed and nothing is sent. *)
Theorem HPV_SendShortestPath_found (w : World) (nodes : list str)
    (bss : list bytes) (tr : list Event) :
  Forall2 (λ n bs, utf8_encode n = Some bs) nodes bss →
  HPV_SendShortestPath w (Some (Some <$> nodes)) tr
  = (if lpv_send_ok w then tr ++ [Send Lpv (mjoin bss)] else tr, Returned tt).
Proof.
  intros Henc%utf8_encode_mjoin.
  by apply (HPV_SendShortestPath_text w _ (mjoin nodes)); [apply join_strs|].
Qed.

(** X9. Whatever list the sender is given, every octet it transmits lies
    between 0 and 244: the octet 255, which the sender's comment reserves
    for "no path", never occurs in a reply that carries a path. *)
Theorem HPV_SendShortestPath_octets (w : World) (path : list PyNode) (b : Z) :
  b ∈ sent_to Lpv (HPV_SendShortestPath w (Some path) []).1 → 0 ≤ b ≤ 244.
Proof.
  unfold HPV_SendShortestPath. run_io.
  destruct (join path) as [path_string|e|]; cbn;
    [|destruct e; cbn; by intros ?%elem_of_nil|by intros ?%elem_of_nil].
  destruct (utf8_encode path_string) as [reply|] eqn:Henc; cbn;
    [|by intros ?%elem_of_nil].
  destruct (lpv_send_ok w); cbn; [|by intros ?%elem_of_nil].
  rewrite app_nil_r. intros Hb.
  by apply (proj1 (Forall_forall _ _) (utf8_encode_octets _ _ Henc)).
Qed.

(** * A round of the relay that goes well *)

(** The graph as the engine sees it has the same edges. *)
Lemma edge_as_map (weights : list (@Edge str)) (u v : PyNode) (w : Z) :
  edge (as_map weights) u v w ↔
  ∃ u0 v0, u = Some u0 ∧ v = Some v0 ∧ edge weights u0 v0 w.
Proof.
  unfold edge, as_map. rewrite !list_elem_of_fmap. split.
  - intros [([[u0 v0] w0] & [= -> -> ->] & Hin)|([[u0 v0] w0] & [= -> -> ->] & Hin)];
      simpl in *; [exists u0, v0|exists v0, u0]; auto.
  - intros (u0 & v0 & -> & -> & [Hin|Hin]); [left|right].
    + by exists (u0, v0, w).
    + by exists (v0, u0, w).
Qed.

Lemma nonneg_as_map (weights : list (@Edge str)) :
  nonneg weights → nonneg (as_map weights).
Proof. unfold nonneg, as_map. by rewrite Forall_fmap. Qed.

Lemma walk_as_map (weights : list (@Edge str)) (s : str) (t : PyNode) p d :
  walk (as_map weights) (Some s) t p d →
  ∃ t0 p0, t = Some t0 ∧ p = Some <$> p0 ∧ walk weights s t0 p0 d.
Proof.
  induction 1 as [|u v w p d _ (u0 & p0 & -> & -> & Hw) He].
  - exists s, [s]. split_and!; [done..|constructor].
  - apply edge_as_map in He as (u1 & v0 & [= <-] & -> & He).
    exists v0, (p0 ++ [v0]). split_and!; [done|by rewrite fmap_snoc|].
    by eapply walk_step.
Qed.

Lemma walk_to_as_map (weights : list (@Edge str)) (s t : str) p d :
  walk weights s t p d →
  walk (as_map weights) (Some s) (Some t) (Some <$> p) d.
Proof.
  induction 1 as [|u v w p d _ IH He]; [constructor|].
  rewrite fmap_snoc. eapply walk_step; [exact IH|].
  apply edge_as_map. by exists u, v.
Qed.

(** Every node of a walk is the source or an endpoint of an edge. *)
Lemma walk_nodes `{Countable Node} (map : list (@Edge Node)) s t p d x :
  walk map s t p d → x ∈ p → x = s ∨ ∃ y w, edge map x y w.
Proof.
  induction 1 as [|u v w p d _ IH He].
  - intros ->%list_elem_of_singleton. by left.
  - intros [Hx| ->%list_elem_of_singleton]%elem_of_app; [by apply IH|].
    right. exists u, w. destruct He; [by right|by left].
Qed.

Lemma ascii_nodes_edge (weights : list (@Edge str)) x y w :
  ascii_nodes weights → edge weights x y w → ∃ c, x = [c] ∧ ascii c.
Proof.
  unfold ascii_nodes. rewrite Forall_forall.
  intros Hall [Hin|Hin]; destruct (Hall _ Hin) as [Hu Hv]; done.
Qed.

(** A list of one-character nodes is the list of its characters. *)
Lemma single_chars (p : list str) :
  Forall (λ n, ∃ c, n = [c] ∧ ascii c) p →
  p = (λ c, [c]) <$> mjoin p ∧ Forall ascii (mjoin p).
Proof.
  induction 1 as [|n p (c & -> & Hc) _ [IH1 IH2]]; [done|].
  change (mjoin ([c] :: p)) with (c :: mjoin p). split.
  - rewrite fmap_cons. by f_equal.
  - by constructor.
Qed.

Lemma HPV_ReceiveLpvRequest_ascii (w : World) (a b : Z) (rest : bytes) tr :
  lpv_request w = Data (a :: b :: rest) → ascii a → ascii b →
  HPV_ReceiveLpvRequest w tr = (tr, Returned (Some [a], Some [b])).
Proof.
  intros Hreq Ha Hb. unfold HPV_ReceiveLpvRequest. rewrite Hreq. run_io.
  replace (take 2 (a :: b :: rest)) with [a; b] by done.
  assert (Forall ascii [a; b]) as Hab
    by (apply Forall_cons_2; [done|]; apply Forall_cons_2; [done|]; apply Forall_nil_2).
  by rewrite (utf8_decode_encode [a; b] [a; b] (utf8_encode_ascii _ Hab)).
Qed.

(** The engine on the received graph, in terms of the graph itself. *)
Lemma HPV_GetShortestPath_as_map (weights : list (@Edge str)) (s t : str) :
  nonneg weights →
  ∃ fuel0 (p : list str),
    (∀ fuel, (fuel0 ≤ fuel)%nat →
       HPV_GetShortestPath pynode_ltb fuel (Some s) (Some t) (as_map weights)
       = Returned (Some <$> p)) ∧
    NoDup p ∧
    ((p = [] ∧ ¬ reachable weights s t) ∨
     (∃ d, walk weights s t p d ∧ ∀ q W, walk weights s t q W → d ≤ W)).
Proof.
  intros Hnn.
  destruct (HPV_GetShortestPath_post pynode_ltb (as_map weights) (Some s) (Some t)
              (nonneg_as_map _ Hnn))
    as (fuel0 & r & Hrun & [[-> Hno]|(d & Hw & Hmin)]).
  - exists fuel0, []. split; [done|]. split; [apply NoDup_nil_2|].
    left. split; [done|].
    intros (q & ws & Hq%route_walk). by eapply Hno, walk_to_as_map.
  - destruct (walk_as_map _ _ _ _ _ Hw) as (t0 & p0 & [= <-] & -> & Hw0).
    exists fuel0, p0. split; [done|]. split.
    + apply (NoDup_fmap_1 Some). generalize (Hrun fuel0 (le_n _)).
      unfold HPV_GetShortestPath.
      pose proof (build_graph_adj (as_map weights)) as Hadj.
      destruct (build_graph (as_map weights)) as [graph nodes]. simpl in *.
      apply dijkstra_loop_simple.
      * intros n y w0 Hin. apply Hadj in Hin.
        by eapply edge_nonneg; [apply nonneg_as_map|].
      * intros d' n p [= -> -> ->]%list_elem_of_singleton. split.
        -- apply NoDup_singleton.
        -- intros x ->%list_elem_of_singleton. exists 0.
           by rewrite lookup_insert_eq.
    + right. exists d. split; [done|].
      intros q W Hq. by eapply Hmin, walk_to_as_map.
Qed.

(** A list of distinct ASCII characters has at most 128 of them. *)
Lemma ascii_NoDup_length (cs : list Z) :
  Forall ascii cs → NoDup cs → (length cs ≤ 128)%nat.
Proof.
  intros Hcs Hnd.
  assert (cs ⊆+ seqZ 0 128) as Hsub.
  { apply NoDup_submseteq; [done|]. intros x Hx. apply elem_of_seqZ.
    apply (proj1 (Forall_forall _ _) Hcs) in Hx. unfold ascii in Hx. lia. }
  apply submseteq_length in Hsub. by rewrite length_seqZ in Hsub.
Qed.

(** A round of the relay that goes well, with what it sends. *)
Lemma main_iteration_healthy_run (w : World) (a b : Z) (rest : bytes)
    (weights : list (@Edge str)) :
  lpv_request w = Data (a :: b :: rest) → ascii a → ascii b →
  fetch_ok w weights → lpv_send_ok w = true →
  nonneg weights → ascii_nodes weights →
  ∃ fuel0 (cs : list Z),
    (∀ fuel, (fuel0 ≤ fuel)%nat →
       main_iteration w fuel []
       = ([Connect Cloud; Send Cloud probe_octets; Send Lpv cs;
           Close Cloud; Close Lpv], Returned tt)) ∧
    Forall ascii cs ∧ NoDup cs ∧
    ((cs = [] ∧ ¬ reachable weights [a] [b]) ∨
     (∃ ws, route weights [a] [b] ((λ c, [c]) <$> cs) ws ∧
            ∀ p' ws', route weights [a] [b] p' ws' → total ws ≤ total ws')).
Proof.
  intros Hreq Ha Hb (Hacc & Hsend & Hecho & serialized & Hser & Hload) Hok Hnn Hasc.
  destruct (HPV_GetShortestPath_as_map weights [a] [b] Hnn)
    as (fuel0 & p & Hrun & Hnd & Hpost).
  assert (Forall (λ n, ∃ c, n = [c] ∧ ascii c) p) as Hp.
  { destruct Hpost as [[-> _]|(d & Hw & _)]; [done|].
    apply Forall_forall. intros x Hx.
    destruct (walk_nodes _ _ _ _ _ _ Hw Hx) as [->|(y & w' & He)];
      [by exists a|by eapply ascii_nodes_edge]. }
  destruct (single_chars p Hp) as [Hpcs Hcs].
  exists fuel0, (mjoin p). split; [|split; [done|split]].
  - intros fuel Hle. unfold main_iteration. run_io.
    rewrite (HPV_ReceiveLpvRequest_ascii w a b rest [] Hreq Ha Hb).
    rewrite (HPV_ConnectToCloudServer_ok w [] Hacc Hsend Hecho).
    rewrite (HPV_ReceiveWeights_ok w serialized weights _ Hser Hload).
    io_cbn.
    match goal with
    | |- context [@HPV_GetShortestPath ?A ?B ?C ?f ?n ?s ?t ?m] =>
        replace (@HPV_GetShortestPath A B C f n s t m)
          with (Returned (Some <$> p)) by (symmetry; exact (Hrun fuel Hle))
    end.
    rewrite (HPV_SendShortestPath_text w (Some <$> p) (mjoin p) (mjoin p))
      by (by apply join_strs || by apply utf8_encode_ascii).
    by rewrite Hok.
  - rewrite Hpcs in Hnd. by apply NoDup_fmap_1 in Hnd.
  - destruct Hpost as [[-> Hno]|(d & Hw & Hmin)]; [by left|right].
    destruct (walk_route _ _ _ _ _ Hw) as (ws & Hr & <-).
    exists ws. rewrite <- Hpcs. split; [done|].
    intros p' ws' Hr'%route_walk. by apply Hmin in Hr'.
Qed.

(** X10. A round of the relay that goes well.  The request starts with two
    ASCII characters, the fetch from the authority succeeds and yields a
    graph with non-negative weights whose nodes are single ASCII characters,
    and the reply can be sent.  Then, given enough rounds of the engine's
    loop, the round contacts the authority, sends the client one
    transmission, closes both sockets and raises nothing; the transmission
    is empty when the destination cannot be reached, and otherwise holds,
    one octet per node, a route from the source to the destination of least
    weight. *)
Theorem main_iteration_healthy (w : World) (a b : Z) (rest : bytes)
    (weights : list (@Edge str)) :
  lpv_request w = Data (a :: b :: rest) → ascii a → ascii b →
  fetch_ok w weights → lpv_send_ok w = true →
  nonneg weights → ascii_nodes weights →
  ∃ fuel0 (cs : list Z),
    (∀ fuel, (fuel0 ≤ fuel)%nat →
       main_iteration w fuel []
       = ([Connect Cloud; Send Cloud probe_octets; Send Lpv cs;
           Close Cloud; Close Lpv], Returned tt)) ∧
    ((cs = [] ∧ ¬ reachable weights [a] [b]) ∨
     (∃ ws, route weights [a] [b] ((λ c, [c]) <$> cs) ws ∧
            ∀ p' ws', route weights [a] [b] p' ws' → total ws ≤ total ws')).
Proof.
  intros Hreq Ha Hb Hfetch Hok Hnn Hasc.
  destruct (main_iteration_healthy_run w a b rest weights Hreq Ha Hb Hfetch Hok
              Hnn Hasc) as (fuel0 & cs & Hrun & _ & _ & Hpost).
  by exists fuel0, cs.
Qed.

(** * The authority's round *)

(** X11. A round of the authority that goes well: for a probe of at most
    1024 octets that is UTF-8 text it echoes the probe, then sends the
    serialized graph, then closes the connection; when the graph cannot be
    sent the error is swallowed and the connection is closed all the same. *)
Theorem CloudServer_iteration_serves (probe : bytes) (msg : str)
    (weights_ok : bool) (serialized : bytes) :
  (length probe ≤ 1024)%nat → utf8_decode probe = Some msg →
  CloudServer_iteration (Data probe) true weights_ok serialized []
  = ([Send Hpv probe] ++ (if weights_ok then [Send Hpv serialized] else [])
       ++ [Close Hpv],
     Returned tt).
Proof.
  intros Hlen Hdec. unfold CloudServer_iteration, CloudServer_SendWeights.
  run_io. rewrite (CloudServer_WaitForConnection_echo probe msg [] Hlen Hdec).
  by destruct weights_ok.
Qed.

(** X12. A handshake that fails on a socket error ends the authority: when
    the probe cannot be read, or its echo cannot be sent, the handshake
    reports [(None, None)], the graph is not sent, and the round raises
    [AttributeError] at [clientSocket.close()]. *)
Theorem CloudServer_iteration_handshake_failure (probe : Recv)
    (echo_ok weights_ok : bool) (serialized : bytes) (tr : list Event) :
  probe = RecvError ∨
  (echo_ok = false ∧
   ∃ bs msg, probe = Data bs ∧ utf8_decode (take 1024 bs) = Some msg) →
  CloudServer_WaitForConnection probe echo_ok tr = (tr, Returned None) ∧
  CloudServer_iteration probe echo_ok weights_ok serialized tr
  = (tr, Raised AttributeError).
Proof.
  intros [->|(-> & bs & msg & -> & Hdec)];
    unfold CloudServer_iteration, CloudServer_WaitForConnection; run_io;
    [done|].
  rewrite Hdec. io_cbn.
  by rewrite (utf8_encode_decode _ _ Hdec).
Qed.

(** * The client *)

(** Text that decodes has no octet above 244. *)
Lemma utf8_decode_octets (bs : bytes) (s : str) :
  utf8_decode bs = Some s → Forall (λ b, 0 ≤ b ≤ 244) bs.
Proof. intros Henc%utf8_encode_decode. by eapply utf8_encode_octets. Qed.

(** X13. The relay's reply as the client shows it.  When the relay has sent
    the path [nodes] in one transmission of at most 1024 octets, a client
    that receives this transmission sends its request, closes its socket and
    prints the characters of the node names, in path order, with an arrow
    between each two of them. *)
Theorem LowPowerVehicle_shows_reply (w : World) (nodes : list str)
    (reply : bytes) (source destination : str) (message : bytes) :
  HPV_SendShortestPath w (Some (Some <$> nodes)) [] = ([Send Lpv reply], Returned tt) →
  (length reply ≤ 1024)%nat →
  utf8_encode (source ++ destination) = Some message →
  LowPowerVehicle source destination true true (Data reply) []
  = ([Connect Hpv; Send Hpv message; Close Hpv],
     Returned (lit "Here is the shortest path: " ++ arrow_join (mjoin nodes))).
Proof.
  intros Hsend Hlen Hmsg.
  assert (utf8_decode reply = Some (mjoin nodes)) as Hdec.
  { revert Hsend. unfold HPV_SendShortestPath. run_io. rewrite join_strs.
    destruct (utf8_encode (mjoin nodes)) as [bs|] eqn:Henc; cbn; [|done].
    destruct (lpv_send_ok w); cbn; [|done].
    intros [= <-]. by apply utf8_decode_encode. }
  unfold LowPowerVehicle. run_io. rewrite Hmsg. io_cbn.
  rewrite firstn_all2 by done. by rewrite Hdec.
Qed.

(** X14. A reply that is not UTF-8 text ends the client before it closes its
    socket: when one of the first 1024 octets of the reply lies outside
    0..244, as the octet 255 does, the client raises [UnicodeDecodeError]
    after sending its request, prints nothing and closes nothing. *)
Theorem LowPowerVehicle_undecodable_reply (source destination : str)
    (message reply : bytes) (b : Z) :
  utf8_encode (source ++ destination) = Some message →
  b ∈ take 1024 reply → ¬ (0 ≤ b ≤ 244) →
  LowPowerVehicle source destination true true (Data reply) []
  = ([Connect Hpv; Send Hpv message], Raised UnicodeDecodeError).
Proof.
  intros Hmsg Hin Hb. unfold LowPowerVehicle. run_io. rewrite Hmsg. io_cbn.
  destruct (utf8_decode (take 1024 reply)) as [response|] eqn:Hdec; [|done].
  destruct Hb.
  by apply (proj1 (Forall_forall _ _) (utf8_decode_octets _ _ Hdec)).
Qed.

(** X15. The client's request as the relay reads it.  The client sends the
    two names joined; the relay reads two octets and takes one character for
    each name.  So the relay recovers the pair the client meant exactly when
    each of the two names is a single ASCII character. *)
Theorem LowPowerVehicle_request_understood (w : World) (source destination : str)
    (message : bytes) (reply : Recv) :
  utf8_encode (source ++ destination) = Some message →
  lpv_request w = Data message →
  Send Hpv message ∈ (LowPowerVehicle source destination true true reply []).1 ∧
  ((HPV_ReceiveLpvRequest w []).2 = Returned (Some source, Some destination) ↔
   ∃ a b, source = [a] ∧ destination = [b] ∧ ascii a ∧ ascii b).
Proof.
  intros Hmsg Hreq. split.
  { unfold LowPowerVehicle. run_io. rewrite Hmsg. io_cbn.
    destruct reply as [bs|]; io_cbn; [|set_solver].
    destruct (utf8_decode (take 1024 bs)); io_cbn; set_solver. }
  split.
  - unfold HPV_ReceiveLpvRequest. rewrite Hreq. run_io.
    pose proof (decode_request message) as Hd.
    destruct (utf8_decode (take 2 message)) as [data|]; cbn; [|done].
    destruct Hd as [(a & b & rest & -> & Ha & Hb & ->)|[Hlen Hno]]; cbn.
    + intros [= <- <-]. by exists a, b.
    + by rewrite decide_True.
  - intros (a & b & -> & -> & Ha & Hb).
    assert (Forall ascii [a; b]) as Hab
      by (apply Forall_cons_2; [done|]; apply Forall_cons_2; [done|]; apply Forall_nil_2).
    change ([a] ++ [b]) with [a; b] in Hmsg.
    rewrite (utf8_encode_ascii _ Hab) in Hmsg. injection Hmsg as <-.
    by rewrite (HPV_ReceiveLpvRequest_ascii w a b [] [] Hreq Ha Hb).
Qed.

(** * Independence of the order of edges and of ties *)

Section EngineOrder.

Context `{Countable Node}.

Lemma walk_same_edges (map map' : list (@Edge Node)) s t p d :
  (∀ e, e ∈ map ↔ e ∈ map') → walk map s t p d → walk map' s t p d.
Proof.
  intros Hsame. induction 1 as [|u v w p d _ IH He]; [constructor|].
  eapply walk_step; [exact IH|]. unfold edge in *. by rewrite <- !Hsame.
Qed.

(** X16. The weight of the result depends neither on the order in which the
    edges are listed nor on how ties between queue entries are broken.  Two
    runs on maps with the same entries and non-negative weights, under any
    two orders on the nodes, both return the empty list, or return routes of
    the same total weight. *)
Theorem HPV_GetShortestPath_order_independent
    (ltb1 ltb2 : Node → Node → bool) (map map' : list (@Edge Node))
    (s t : Node) (fuel1 fuel2 : nat) (r1 r2 : list Node) :
  nonneg map → (∀ e, e ∈ map ↔ e ∈ map') →
  HPV_GetShortestPath ltb1 fuel1 s t map = Returned r1 →
  HPV_GetShortestPath ltb2 fuel2 s t map' = Returned r2 →
  (r1 = [] ∧ r2 = []) ∨
  (∃ ws1 ws2, route map s t r1 ws1 ∧ route map s t r2 ws2 ∧
              total ws1 = total ws2).
Proof.
  intros Hnn Hsame Hrun1 Hrun2.
  assert (nonneg map') as Hnn'.
  { unfold nonneg in *. rewrite Forall_forall in *. intros e He.
    by apply Hnn, Hsame. }
  destruct (HPV_GetShortestPath_post ltb1 map s t Hnn) as (f1 & q1 & Hq1 & Hp1).
  destruct (HPV_GetShortestPath_post ltb2 map' s t Hnn') as (f2 & q2 & Hq2 & Hp2).
  assert (q1 = r1) as ->.
  { pose proof (Hq1 (f1 `max` fuel1)%nat ltac:(lia)) as Ha.
    pose proof (HPV_GetShortestPath_more ltb1 map s t fuel1 (f1 `max` fuel1)%nat
                  r1 Hrun1 ltac:(lia)) as Hb.
    congruence. }
  assert (q2 = r2) as ->.
  { pose proof (Hq2 (f2 `max` fuel2)%nat ltac:(lia)) as Ha.
    pose proof (HPV_GetShortestPath_more ltb2 map' s t fuel2 (f2 `max` fuel2)%nat
                  r2 Hrun2 ltac:(lia)) as Hb.
    congruence. }
  assert (∀ p d, walk map' s t p d → walk map s t p d) as Hback
    by (intros p d; apply walk_same_edges; intros e; by rewrite Hsame).
  destruct Hp1 as [[-> Hno1]|(d1 & Hw1 & Hmin1)],
           Hp2 as [[-> Hno2]|(d2 & Hw2 & Hmin2)].
  - by left.
  - by destruct (Hno1 _ _ (Hback _ _ Hw2)).
  - by destruct (Hno2 _ _ (walk_same_edges _ _ _ _ _ _ Hsame Hw1)).
  - right. apply Hback in Hw2 as Hw2'.
    pose proof (Hmin1 _ _ Hw2').
    pose proof (Hmin2 _ _ (walk_same_edges _ _ _ _ _ _ Hsame Hw1)).
    destruct (walk_route _ _ _ _ _ Hw1) as (ws1 & Hr1 & Ht1).
    destruct (walk_route _ _ _ _ _ Hw2') as (ws2 & Hr2 & Ht2).
    exists ws1, ws2. split_and!; [done..|lia].
Qed.

End EngineOrder.

(** * The sockets of a round *)






(** * The client and the relay together *)

(** X18. What the client is shown at the end of a round that goes well.  The
    client asks for the way between two nodes named by single ASCII
    characters; the authority is reached and yields a graph with
    non-negative weights whose nodes are single ASCII characters.  Then,
    given enough rounds of the engine's loop, the client receives everything
    the relay sent it, closes its socket and prints the nodes of a route of
    least weight with arrows between them, or nothing after the colon when
    the destination cannot be reached. *)
Theorem LowPowerVehicle_shown_least_route (w : World) (a b : Z)
    (weights : list (@Edge str)) :
  lpv_request w = Data [a; b] → ascii a → ascii b →
  fetch_ok w weights → lpv_send_ok w = true →
  nonneg weights → ascii_nodes weights →
  ∃ fuel0 (cs : list Z),
    (∀ fuel, (fuel0 ≤ fuel)%nat →
       LowPowerVehicle [a] [b] true true
         (Data (sent_to Lpv (main_iteration w fuel []).1)) []
       = ([Connect Hpv; Send Hpv [a; b]; Close Hpv],
          Returned (lit "Here is the shortest path: " ++ arrow_join cs))) ∧
    ((cs = [] ∧ ¬ reachable weights [a] [b]) ∨
     (∃ ws, route weights [a] [b] ((λ c, [c]) <$> cs) ws ∧
            ∀ p' ws', route weights [a] [b] p' ws' → total ws ≤ total ws')).
Proof.
  intros Hreq Ha Hb Hfetch Hok Hnn Hasc.
  destruct (main_iteration_healthy_run w a b [] weights Hreq Ha Hb Hfetch Hok
              Hnn Hasc) as (fuel0 & cs & Hrun & Hcs & Hnd & Hpost).
  exists fuel0, cs. split; [|done]. intros fuel Hle. rewrite (Hrun fuel Hle).
  assert (Forall ascii [a; b]) as Hab
    by (apply Forall_cons_2; [done|]; apply Forall_cons_2; [done|]; apply Forall_nil_2).
  pose proof (ascii_NoDup_length cs Hcs Hnd) as Hlen.
  assert (sent_to Lpv [Connect Cloud; Send Cloud probe_octets; Send Lpv cs;
                       Close Cloud; Close Lpv] = cs) as Hsent.
  { cbn. rewrite decide_False by done. rewrite decide_True by done.
    apply app_nil_r. }
  cbn [fst]. rewrite Hsent.
  unfold LowPowerVehicle. run_io.
  change ([a] ++ [b]) with [a; b]. rewrite (utf8_encode_ascii _ Hab). io_cbn.
  rewrite firstn_all2 by lia.
  by rewrite (utf8_decode_encode cs cs (utf8_encode_ascii _ Hcs)).
Qed.

(** * The graph on the wire *)

(** The relay sees the first 1024 octets of the serialized graph and
    nothing else. *)
Lemma transfer_reads (dumps : list (@Edge str) → bytes)
    (loads : bytes → option (list (@Edge str))) (graph : list (@Edge str)) :
  transfer dumps loads graph =
  match loads (take 1024 (dumps graph)) with
  | Some pathsWeights => Returned (Some pathsWeights)
  | None => Raised AttributeError
  end.
Proof.
  unfold transfer, CloudServer_SendWeights, HPV_ReceiveWeights, graph_world.
  run_io. rewrite decide_True by done. rewrite app_nil_r.
  by destruct (loads (take 1024 (dumps graph))).
Qed.


(** A serialized graph of more than 1024 octets reaches the decoder cut
    short; when the decoder rejects the cut, the handler's [e.strerror]
    raises [AttributeError]. *)
Lemma transfer_cut_short (dumps : list (@Edge str) → bytes)
    (loads : bytes → option (list (@Edge str))) (graph : list (@Edge str)) :
  (1024 < length (dumps graph))%nat →
  take 1024 (dumps graph) ≠ dumps graph ∧
  (loads (take 1024 (dumps graph)) = None →
   transfer dumps loads graph = Raised AttributeError).
Proof.
  intros Hlen. split.
  - intros Heq. apply (f_equal length) in Heq. rewrite length_take in Heq. lia.
  - intros Hloads. by rewrite transfer_reads, Hloads.
Qed.






(** * Concrete instances of the properties above *)

Lemma reference_ascii_nodes : ascii_nodes CloudServer_GlobalGraph.
Proof.
  unfold ascii_nodes, CloudServer_GlobalGraph.
  repeat (apply Forall_cons_2;
            [split; (eexists; split; [reflexivity|by vm_compute])|]).
  apply Forall_nil_2.
Qed.

Lemma reference_world_fetch_ok : fetch_ok reference_world CloudServer_GlobalGraph.
Proof.
  split; [reflexivity|]. split; [reflexivity|]. split; [reflexivity|].
  exists []. split; reflexivity.
Qed.

Lemma negative_map_isolated_Z : isolated negative_map (lit "Z").
Proof.
  intros y w [Hin|Hin]; unfold negative_map in Hin;
    repeat (apply elem_of_cons in Hin as [[=]|Hin]);
    by apply elem_of_nil in Hin.
Qed.

Lemma reference_B_A_run_reversed :
  HPV_GetShortestPath str_gtb 10 (lit "B") (lit "A") (reverse CloudServer_GlobalGraph)
  = Returned [lit "B"; lit "D"; lit "A"].
Proof. by vm_compute. Qed.

(** The reference topology, from B to A, in 4 rounds of the loop. *)
Lemma HPV_GetShortestPath_returns_route_witness :
  HPV_GetShortestPath str_ltb 4 (lit "B") (lit "A") CloudServer_GlobalGraph
  = Returned [lit "B"; lit "D"; lit "A"] ∧
  ([lit "B"; lit "D"; lit "A"] = [] ∨
   ∃ ws, route CloudServer_GlobalGraph (lit "B") (lit "A")
           [lit "B"; lit "D"; lit "A"] ws).
Proof.
  split; [exact reference_B_A_run|].
  exact (HPV_GetShortestPath_returns_route CloudServer_GlobalGraph (lit "B")
           (lit "A") str_ltb 4 _ reference_B_A_run).
Defined.

(** One edge of weight -1 at the source A, and a destination Z that the map
    does not mention. *)
Lemma HPV_GetShortestPath_negative_diverges_witness :
  edge negative_map (lit "A") (lit "B") (-1) ∧ -1 < 0 ∧
  ¬ reachable negative_map (lit "A") (lit "Z") ∧
  HPV_GetShortestPath str_ltb 1000 (lit "A") (lit "Z") negative_map = OutOfFuel.
Proof.
  assert (edge negative_map (lit "A") (lit "B") (-1)) as He by (left; in_list).
  assert (¬ reachable negative_map (lit "A") (lit "Z")) as Hun.
  { apply isolated_unreachable; [discriminate|right; exact negative_map_isolated_Z]. }
  split; [exact He|]. split; [lia|]. split; [exact Hun|].
  exact (HPV_GetShortestPath_negative_diverges negative_map (lit "A") (lit "Z")
           str_ltb (lit "B") (-1) 1000 He ltac:(lia) Hun).
Defined.

(** The reference topology, from B to A. *)
Lemma HPV_GetShortestPath_simple_witness :
  nonneg CloudServer_GlobalGraph ∧
  HPV_GetShortestPath str_ltb 4 (lit "B") (lit "A") CloudServer_GlobalGraph
  = Returned [lit "B"; lit "D"; lit "A"] ∧
  NoDup [lit "B"; lit "D"; lit "A"].
Proof.
  split; [exact reference_nonneg|]. split; [exact reference_B_A_run|].
  exact (HPV_GetShortestPath_simple str_ltb CloudServer_GlobalGraph (lit "B")
           (lit "A") 4 _ reference_nonneg reference_B_A_run).
Defined.

(** The path B, D, A goes out as the three octets of ["BDA"]. *)
Lemma HPV_SendShortestPath_found_witness :
  Forall2 (λ n bs, utf8_encode n = Some bs)
    [lit "B"; lit "D"; lit "A"] [blit "B"; blit "D"; blit "A"] ∧
  HPV_SendShortestPath reference_world
    (Some (Some <$> [lit "B"; lit "D"; lit "A"])) []
  = ([Send Lpv (blit "BDA")], Returned tt).
Proof.
  assert (Forall2 (λ n bs, utf8_encode n = Some bs)
            [lit "B"; lit "D"; lit "A"] [blit "B"; blit "D"; blit "A"]) as Henc
    by (repeat constructor).
  split; [exact Henc|].
  exact (HPV_SendShortestPath_found reference_world _ _ [] Henc).
Defined.

(** The octet of ["D"] in the reply for the path B, D, A. *)
Lemma HPV_SendShortestPath_octets_witness :
  68 ∈ sent_to Lpv
         (HPV_SendShortestPath reference_world
            (Some [Some (lit "B"); Some (lit "D"); Some (lit "A")]) []).1 ∧
  0 ≤ 68 ≤ 244.
Proof.
  assert (68 ∈ sent_to Lpv
            (HPV_SendShortestPath reference_world
               (Some [Some (lit "B"); Some (lit "D"); Some (lit "A")]) []).1)
    as Hin by (vm_compute; in_list).
  split; [exact Hin|].
  exact (HPV_SendShortestPath_octets reference_world _ 68 Hin).
Defined.

(** The request [b'BA'] with the reference topology at the authority. *)
Lemma main_iteration_healthy_witness :
  lpv_request reference_world = Data (66 :: 65 :: []) ∧ ascii 66 ∧ ascii 65 ∧
  fetch_ok reference_world CloudServer_GlobalGraph ∧
  lpv_send_ok reference_world = true ∧
  nonneg CloudServer_GlobalGraph ∧ ascii_nodes CloudServer_GlobalGraph ∧
  ∃ fuel0 (cs : list Z),
    (∀ fuel, (fuel0 ≤ fuel)%nat →
       main_iteration reference_world fuel []
       = ([Connect Cloud; Send Cloud probe_octets; Send Lpv cs;
           Close Cloud; Close Lpv], Returned tt)) ∧
    ((cs = [] ∧ ¬ reachable CloudServer_GlobalGraph [66] [65]) ∨
     (∃ ws, route CloudServer_GlobalGraph [66] [65] ((λ c, [c]) <$> cs) ws ∧
            ∀ p' ws', route CloudServer_GlobalGraph [66] [65] p' ws' →
                      total ws ≤ total ws')).
Proof.
  assert (ascii 66) as Ha by (unfold ascii; lia).
  assert (ascii 65) as Hb by (unfold ascii; lia).
  split; [reflexivity|]. split; [exact Ha|]. split; [exact Hb|].
  split; [exact reference_world_fetch_ok|]. split; [reflexivity|].
  split; [exact reference_nonneg|]. split; [exact reference_ascii_nodes|].
  exact (main_iteration_healthy reference_world 66 65 [] CloudServer_GlobalGraph
           eq_refl Ha Hb reference_world_fetch_ok eq_refl reference_nonneg
           reference_ascii_nodes).
Defined.

(** The relay's probe and a graph of two octets. *)
Lemma CloudServer_iteration_serves_witness :
  (length probe_octets ≤ 1024)%nat ∧
  utf8_decode probe_octets = Some test_message ∧
  CloudServer_iteration (Data probe_octets) true true [128; 4] []
  = ([Send Hpv probe_octets; Send Hpv [128; 4]; Close Hpv], Returned tt).
Proof.
  assert (length probe_octets ≤ 1024)%nat as Hlen by (simpl; lia).
  split; [exact Hlen|]. split; [reflexivity|].
  exact (CloudServer_iteration_serves probe_octets test_message true [128; 4]
           Hlen eq_refl).
Defined.

(** A probe that cannot be read. *)
Lemma CloudServer_iteration_handshake_failure_witness :
  CloudServer_WaitForConnection RecvError true [] = ([], Returned None) ∧
  CloudServer_iteration RecvError true true [128; 4] []
  = ([], Raised AttributeError).
Proof.
  exact (CloudServer_iteration_handshake_failure RecvError true true [128; 4] []
           (or_introl eq_refl)).
Defined.

(** The reply for the path B, D, A as the client prints it. *)
Lemma LowPowerVehicle_shows_reply_witness :
  HPV_SendShortestPath reference_world
    (Some (Some <$> [lit "B"; lit "D"; lit "A"])) []
  = ([Send Lpv (blit "BDA")], Returned tt) ∧
  (length (blit "BDA") ≤ 1024)%nat ∧
  utf8_encode (lit "B" ++ lit "A") = Some (blit "BA") ∧
  LowPowerVehicle (lit "B") (lit "A") true true (Data (blit "BDA")) []
  = ([Connect Hpv; Send Hpv (blit "BA"); Close Hpv],
     Returned (lit "Here is the shortest path: B -> D -> A")).
Proof.
  assert (length (blit "BDA") ≤ 1024)%nat as Hlen by (simpl; lia).
  split; [reflexivity|]. split; [exact Hlen|]. split; [reflexivity|].
  exact (LowPowerVehicle_shows_reply reference_world
           [lit "B"; lit "D"; lit "A"] (blit "BDA") (lit "B") (lit "A")
           (blit "BA") eq_refl Hlen eq_refl).
Defined.

(** A reply of the single octet 255. *)
Lemma LowPowerVehicle_undecodable_reply_witness :
  utf8_encode (lit "B" ++ lit "A") = Some (blit "BA") ∧
  255 ∈ take 1024 [255] ∧ ¬ (0 ≤ 255 ≤ 244) ∧
  LowPowerVehicle (lit "B") (lit "A") true true (Data [255]) []
  = ([Connect Hpv; Send Hpv (blit "BA")], Raised UnicodeDecodeError).
Proof.
  assert (255 ∈ take 1024 [255]) as Hin by (simpl; in_list).
  assert (¬ (0 ≤ 255 ≤ 244)) as Hout by lia.
  split; [reflexivity|]. split; [exact Hin|]. split; [exact Hout|].
  exact (LowPowerVehicle_undecodable_reply (lit "B") (lit "A") (blit "BA")
           [255] 255 eq_refl Hin Hout).
Defined.

(** The client's own request, for the way from B to A. *)
Lemma LowPowerVehicle_request_understood_witness :
  utf8_encode (lit "B" ++ lit "A") = Some (blit "BA") ∧
  lpv_request reference_world = Data (blit "BA") ∧
  Send Hpv (blit "BA")
    ∈ (LowPowerVehicle (lit "B") (lit "A") true true (Data (blit "BDA")) []).1 ∧
  ((HPV_ReceiveLpvRequest reference_world []).2
     = Returned (Some (lit "B"), Some (lit "A")) ↔
   ∃ a b, lit "B" = [a] ∧ lit "A" = [b] ∧ ascii a ∧ ascii b).
Proof.
  split; [reflexivity|]. split; [reflexivity|].
  exact (LowPowerVehicle_request_understood reference_world (lit "B") (lit "A")
           (blit "BA") (Data (blit "BDA")) eq_refl eq_refl).
Defined.

(** The reference topology listed backwards, with ties broken the other
    way. *)
Lemma HPV_GetShortestPath_order_independent_witness :
  nonneg CloudServer_GlobalGraph ∧
  (∀ e, e ∈ CloudServer_GlobalGraph ↔ e ∈ reverse CloudServer_GlobalGraph) ∧
  HPV_GetShortestPath str_ltb 4 (lit "B") (lit "A") CloudServer_GlobalGraph
  = Returned [lit "B"; lit "D"; lit "A"] ∧
  HPV_GetShortestPath str_gtb 10 (lit "B") (lit "A") (reverse CloudServer_GlobalGraph)
  = Returned [lit "B"; lit "D"; lit "A"] ∧
  (([lit "B"; lit "D"; lit "A"] = [] ∧ [lit "B"; lit "D"; lit "A"] = []) ∨
   (∃ ws1 ws2,
      route CloudServer_GlobalGraph (lit "B") (lit "A") [lit "B"; lit "D"; lit "A"] ws1 ∧
      route CloudServer_GlobalGraph (lit "B") (lit "A") [lit "B"; lit "D"; lit "A"] ws2 ∧
      total ws1 = total ws2)).
Proof.
  assert (∀ e, e ∈ CloudServer_GlobalGraph ↔ e ∈ reverse CloudServer_GlobalGraph)
    as Hsame by (intros e; by rewrite elem_of_reverse).
  split; [exact reference_nonneg|]. split; [exact Hsame|].
  split; [exact reference_B_A_run|]. split; [exact reference_B_A_run_reversed|].
  exact (HPV_GetShortestPath_order_independent str_ltb str_gtb
           CloudServer_GlobalGraph (reverse CloudServer_GlobalGraph)
           (lit "B") (lit "A") 4 10 _ _ reference_nonneg Hsame
           reference_B_A_run reference_B_A_run_reversed).
Defined.

(** The client's own request with the reference topology at the
    authority. *)
Lemma LowPowerVehicle_shown_least_route_witness :
  lpv_request reference_world = Data [66; 65] ∧ ascii 66 ∧ ascii 65 ∧
  fetch_ok reference_world CloudServer_GlobalGraph ∧
  lpv_send_ok reference_world = true ∧
  nonneg CloudServer_GlobalGraph ∧ ascii_nodes CloudServer_GlobalGraph ∧
  ∃ fuel0 (cs : list Z),
    (∀ fuel, (fuel0 ≤ fuel)%nat →
       LowPowerVehicle [66] [65] true true
         (Data (sent_to Lpv (main_iteration reference_world fuel []).1)) []
       = ([Connect Hpv; Send Hpv [66; 65]; Close Hpv],
          Returned (lit "Here is the shortest path: " ++ arrow_join cs))) ∧
    ((cs = [] ∧ ¬ reachable CloudServer_GlobalGraph [66] [65]) ∨
     (∃ ws, route CloudServer_GlobalGraph [66] [65] ((λ c, [c]) <$> cs) ws ∧
            ∀ p' ws', route CloudServer_GlobalGraph [66] [65] p' ws' →
                      total ws ≤ total ws')).
Proof.
  assert (ascii 66) as Ha by (unfold ascii; lia).
  assert (ascii 65) as Hb by (unfold ascii; lia).
  split; [reflexivity|]. split; [exact Ha|]. split; [exact Hb|].
  split; [exact reference_world_fetch_ok|]. split; [reflexivity|].
  split; [exact reference_nonneg|]. split; [exact reference_ascii_nodes|].
  exact (LowPowerVehicle_shown_least_route reference_world 66 65
           CloudServer_GlobalGraph eq_refl Ha Hb reference_world_fetch_ok
           eq_refl reference_nonneg reference_ascii_nodes).
Defined.

